(** * Address book core of [answer.py]: fields, contacts, address book

    A shallow embedding of the in-memory data model of [src/answer.py]
    (the [DataField] classes and their registry, [Contact], [AddressBook])
    together with the properties of the specification stated against it.

    Conventions of the embedding.
    - A Python [str] is a Rocq [string]; every character is a code point
      below 256.  In that range [\d] is exactly ['0'..'9'].
    - A Python exception is a constructor of [exn]; a call that may raise
      returns a [result].  Methods that mutate [self] are computations of
      the state-and-exception monad [M].
    - An object is modelled by its state.  No object sits at two places of
      a list or of the map, as is the case for everything the program
      itself builds: a mutation in place is the replacement of the state at
      that one place.
    - [re], [datetime.strptime], [int] and [json] belong to the Python
      standard library.  The regular expressions of the program, and the one
      [strptime] compiles its format to, are embedded as syntax trees and
      run by a backtracking matcher that follows the priorities of [re];
      [json.dumps] and [json.loads] are taken at the level of the document
      tree ([document]), not of its text.
    - Indices and ids reach the methods as [int] or [str] values
      ([pyval]); field values are strings. *)

From Stdlib Require Import ZArith Ascii String DecimalString DecimalZ.
From stdpp Require Import base list strings.

Open Scope Z_scope.

(** ** Exceptions and results *)

Inductive exn : Type :=
| IncorrectInput (msg : string)       (* class IncorrectInput(Exception) *)
| FieldDecodeError (msg : string)     (* class FieldDecodeError(Exception) *)
| ValueError
| TypeError
| IndexError
| KeyError
| AttributeError
| OverflowError.

Inductive result (A : Type) : Type :=
| Ok (a : A)
| Raise (e : exn).
Arguments Ok {A} a.
Arguments Raise {A} e.

Global Instance result_ret : MRet result := fun _ a => Ok a.
Global Instance result_bind : MBind result := fun _ _ f r =>
  match r with
  | Ok a => f a
  | Raise e => Raise e
  end.

(** The state-and-exception monad of the methods that mutate [self]:
    a raised exception still leaves a state behind. *)
Definition M (S A : Type) : Type := S -> result A * S.

Global Instance M_ret {S} : MRet (M S) := fun _ a s => (Ok a, s).
Global Instance M_bind {S} : MBind (M S) := fun _ _ f m s =>
  match m s with
  | (Ok a, s') => f a s'
  | (Raise e, s') => (Raise e, s')
  end.

Definition raise {S A} (e : exn) : M S A := fun s => (Raise e, s).
Definition get {S} : M S S := fun s => (Ok s, s).
Definition put {S} (s : S) : M S unit := fun _ => (Ok tt, s).
Definition lift {S A} (r : result A) : M S A := fun s => (r, s).

(** [index_error_decorator]: a [ValueError] escaping the wrapped call is
    replaced by [IncorrectInput("Index value is not integer!")]; every other
    outcome passes through. *)
Definition index_error_decorator {S A} (function : M S A) : M S A :=
  fun s => match function s with
           | (Raise ValueError, s') =>
               (Raise (IncorrectInput "Index value is not integer!"), s')
           | r => r
           end.

(** ** Strings *)

Definition is_digit (c : ascii) : bool :=
  (48 <=? nat_of_ascii c)%nat && (nat_of_ascii c <=? 57)%nat.

(** [str.isspace] on code points below 256. *)
Definition is_space (c : ascii) : bool :=
  let n := nat_of_ascii c in
  ((9 <=? n)%nat && (n <=? 13)%nat) || ((28 <=? n)%nat && (n <=? 32)%nat)
  || (n =? 133)%nat || (n =? 160)%nat.

Fixpoint str_filter (p : ascii -> bool) (s : string) : string :=
  match s with
  | EmptyString => EmptyString
  | String c s' => if p c then String c (str_filter p s') else str_filter p s'
  end.

(** [value.replace(" ", "")] *)
Definition remove_spaces (s : string) : string :=
  str_filter (fun c => negb (Ascii.eqb c " ")) s.

Fixpoint str_all (p : ascii -> bool) (s : string) : bool :=
  match s with
  | EmptyString => true
  | String c s' => p c && str_all p s'
  end.

(** [needle in hay] on strings. *)
Fixpoint str_contains (needle hay : string) : bool :=
  String.prefix needle hay ||
  match hay with
  | EmptyString => false
  | String _ hay' => str_contains needle hay'
  end.

(** [sep.join(parts)] *)
Fixpoint str_join (sep : string) (parts : list string) : string :=
  match parts with
  | [] => ""
  | [p] => p
  | p :: rest => p +:+ sep +:+ str_join sep rest
  end.

(** Iterating a [str] yields its one-character strings. *)
Fixpoint str_chars (s : string) : list string :=
  match s with
  | EmptyString => []
  | String c s' => String c EmptyString :: str_chars s'
  end.

Definition digit_val (c : ascii) : Z := Z.of_nat (nat_of_ascii c) - 48.

Fixpoint digits_val (acc : Z) (s : string) : Z :=
  match s with
  | EmptyString => acc
  | String c s' => digits_val (10 * acc + digit_val c) s'
  end.

(** ** Regular expressions, as [re] runs them

    Ordered alternation, greedy [?] and [+], numbered capture groups,
    [^] at offset 0 and [$] at the end or before a final newline, with
    backtracking through the continuation [k]. *)

Inductive regex : Type :=
| Eps
| Chr (c : ascii)
| Cls (p : ascii -> bool)
| Bol
| Eol
| Cat (r1 r2 : regex)
| Alt (r1 r2 : regex)
| Opt (r : regex)
| Plus (p : ascii -> bool)
| Grp (n : nat) (r : regex).

Definition captures : Type := list (nat * string).

Fixpoint group (n : nat) (caps : captures) : option string :=
  match caps with
  | [] => None
  | (m, v) :: rest => if (m =? n)%nat then Some v else group n rest
  end.

Definition at_eol (s : string) : bool :=
  match s with
  | EmptyString => true
  | String c EmptyString => Ascii.eqb c "010"
  | _ => false
  end.

Section Matcher.
Context {A : Type}.

Fixpoint plus_loop (p : ascii -> bool) (pos : nat) (s : string)
    (k : nat -> string -> option A) : option A :=
  match s with
  | EmptyString => None
  | String c s' =>
      if p c then
        match plus_loop p (S pos) s' k with
        | Some x => Some x
        | None => k (S pos) s'
        end
      else None
  end.

Fixpoint rmatch (r : regex) (pos : nat) (s : string) (caps : captures)
    (k : nat -> string -> captures -> option A) : option A :=
  match r with
  | Eps => k pos s caps
  | Chr c =>
      match s with
      | String a s' => if Ascii.eqb a c then k (S pos) s' caps else None
      | EmptyString => None
      end
  | Cls p =>
      match s with
      | String a s' => if p a then k (S pos) s' caps else None
      | EmptyString => None
      end
  | Bol => if (pos =? 0)%nat then k pos s caps else None
  | Eol => if at_eol s then k pos s caps else None
  | Cat r1 r2 =>
      rmatch r1 pos s caps (fun pos' s' caps' => rmatch r2 pos' s' caps' k)
  | Alt r1 r2 =>
      match rmatch r1 pos s caps k with
      | Some x => Some x
      | None => rmatch r2 pos s caps k
      end
  | Opt r1 =>
      match rmatch r1 pos s caps k with
      | Some x => Some x
      | None => k pos s caps
      end
  | Plus p => plus_loop p pos s (fun pos' s' => k pos' s' caps)
  | Grp n r1 =>
      rmatch r1 pos s caps (fun pos' s' caps' =>
        k pos' s' ((n, String.substring 0 (pos' - pos) s) :: caps'))
  end.
End Matcher.

(** A successful match: where it ended and what the groups captured. *)
Record match_object : Type := MatchObject {
  m_end : nat;
  m_groups : captures
}.

(** [pattern.match(s)]: anchored at offset 0. *)
Definition re_match (r : regex) (s : string) : option match_object :=
  rmatch r 0%nat s [] (fun pos' _ caps => Some (MatchObject pos' caps)).

(** [re.search(pattern, s)]: the first offset at which a match starts. *)
Fixpoint search_from (r : regex) (pos : nat) (s : string) : option match_object :=
  match rmatch r pos s [] (fun pos' _ caps => Some (MatchObject pos' caps)) with
  | Some m => Some m
  | None =>
      match s with
      | EmptyString => None
      | String _ s' => search_from r (S pos) s'
      end
  end.

Definition re_search (r : regex) (s : string) : option match_object :=
  search_from r 0%nat s.

Declare Scope regex_scope.
Delimit Scope regex_scope with re.
Bind Scope regex_scope with regex.
Infix "⋅" := Cat (at level 40, left associativity) : regex_scope.
Infix "∣" := Alt (at level 45, left associativity) : regex_scope.

(** [\d] on the code points the embedding holds, where the decimal digits
    are ['0'..'9']. *)
Definition digit : regex := Cls is_digit.

Fixpoint rep (n : nat) (r : regex) : regex :=
  match n with
  | O => Eps
  | S n' => Cat r (rep n' r)
  end.

Definition in_range (lo hi : ascii) (c : ascii) : bool :=
  (nat_of_ascii lo <=? nat_of_ascii c)%nat && (nat_of_ascii c <=? nat_of_ascii hi)%nat.

Definition not_at (c : ascii) : bool := negb (Ascii.eqb c "@").

(** ** Python values used as indices and ids, and [int(...)] *)

Inductive pyval : Type :=
| VInt (z : Z)
| VStr (s : string).

(** The white space [int] skips around a literal: tab to carriage return
    and the blank, and of the code points from 128 on those that are
    [str.isspace], U+0085 and U+00A0.  The separators U+001C..U+001F are
    [str.isspace] as well, but [int] does not skip them. *)
Definition is_int_space (c : ascii) : bool :=
  let n := nat_of_ascii c in
  ((9 <=? n)%nat && (n <=? 13)%nat) || (n =? 32)%nat
  || (n =? 133)%nat || (n =? 160)%nat.

Fixpoint str_lstrip (s : string) : string :=
  match s with
  | String c s' => if is_int_space c then str_lstrip s' else s
  | EmptyString => EmptyString
  end.

Fixpoint str_rstrip (s : string) : string :=
  match s with
  | String c s' =>
      match str_rstrip s' with
      | EmptyString => if is_int_space c then EmptyString else String c EmptyString
      | r => String c r
      end
  | EmptyString => EmptyString
  end.

Definition str_strip (s : string) : string := str_rstrip (str_lstrip s).

Fixpoint count_digits (s : string) : nat :=
  match s with
  | EmptyString => O
  | String c s' => if is_digit c then S (count_digits s') else count_digits s'
  end.

(** [sys.int_info.default_max_str_digits]: a literal with more digits is
    refused with [ValueError]. *)
Definition MAX_STR_DIGITS : Z := 4300.

(** Decimal digits, a single underscore allowed between two digits. *)
Fixpoint parse_digits (acc : Z) (after_digit : bool) (s : string) : option Z :=
  match s with
  | EmptyString => if after_digit then Some acc else None
  | String c s' =>
      if is_digit c then parse_digits (10 * acc + digit_val c) true s'
      else if Ascii.eqb c "_" && after_digit then parse_digits acc false s'
      else None
  end.

Definition parse_literal (r : string) : option Z :=
  if MAX_STR_DIGITS <? Z.of_nat (count_digits r) then None
  else parse_digits 0 false r.

Definition parse_int (s : string) : option Z :=
  match str_strip s with
  | String "+" r => parse_literal r
  | String "-" r => Z.opp <$> parse_literal r
  | r => parse_literal r
  end.

(** [int(v)]: an [int] is returned as it is, a [str] is parsed in base 10
    or raises [ValueError]. *)
Definition py_int (v : pyval) : result Z :=
  match v with
  | VInt z => Ok z
  | VStr s => match parse_int s with
              | Some z => Ok z
              | None => Raise ValueError
              end
  end.

(** ** Python lists addressed by index *)

Section PyList.
Context {A : Type}.

(** An index [i] of a list of length [n] is valid when [-n <= i < n];
    a negative one counts from the end. *)
Definition norm_index (l : list A) (i : Z) : option nat :=
  let n := Z.of_nat (length l) in
  if (0 <=? i) && (i <? n) then Some (Z.to_nat i)
  else if (- n <=? i) && (i <? 0) then Some (Z.to_nat (n + i))
  else None.

(** [l[i]] with [i] an [int] *)
Definition list_getitem (l : list A) (i : Z) : result A :=
  match norm_index l i with
  | Some k => match l !! k with
              | Some x => Ok x
              | None => Raise IndexError
              end
  | None => Raise IndexError
  end.

(** [l[i] = x] with [i] an [int] *)
Definition list_setitem (l : list A) (i : Z) (x : A) : result (list A) :=
  match norm_index l i with
  | Some k => Ok (<[k:=x]> l)
  | None => Raise IndexError
  end.

(** [l.pop(i)]: the list that remains.  Unlike a subscript, the argument
    of [pop] is converted to a machine integer first (of 64 bits, as on
    the usual builds), and one that does not fit raises [OverflowError]. *)
Definition list_pop (l : list A) (i : Z) : result (list A) :=
  if (- 2 ^ 63 <=? i) && (i <? 2 ^ 63) then
    match norm_index l i with
    | Some k => Ok (delete k l)
    | None => Raise IndexError
    end
  else Raise OverflowError.
End PyList.

(** ** Python dicts with [int] keys, in insertion order *)

Section PyDict.
Context {V : Type}.

Definition dict : Type := list (Z * V).

Fixpoint dict_get (d : dict) (k : Z) : option V :=
  match d with
  | [] => None
  | (k', v) :: rest => if k' =? k then Some v else dict_get rest k
  end.

Definition dict_mem (d : dict) (k : Z) : bool :=
  match dict_get d k with Some _ => true | None => false end.

(** [d[k] = v]: an existing key keeps its place, a new one goes last. *)
Fixpoint dict_set (d : dict) (k : Z) (v : V) : dict :=
  match d with
  | [] => [(k, v)]
  | (k', v') :: rest =>
      if k' =? k then (k', v) :: rest else (k', v') :: dict_set rest k v
  end.

(** [d.pop(k)]: [None] stands for the [KeyError] of an absent key. *)
Fixpoint dict_pop (d : dict) (k : Z) : option dict :=
  match d with
  | [] => None
  | (k', v') :: rest =>
      if k' =? k then Some rest
      else (fun rest' => (k', v') :: rest') <$> dict_pop rest k
  end.

Definition dict_keys (d : dict) : list Z := d.*1.
End PyDict.
Arguments dict V : clear implicits.

(** ** [datetime.strptime(value, '%d.%m.%Y')]

    The format compiles to the regular expression below ([%d], [%m] and
    [%Y] with the separators escaped); the whole string has to be consumed
    and the three numbers have to form a date of the proleptic Gregorian
    calendar with a year in 1..9999.  Every failure is a [ValueError]. *)

Definition STRPTIME_FORMAT : regex :=
  (Grp 1 (Chr "3" ⋅ Cls (in_range "0" "1")
          ∣ Cls (in_range "1" "2") ⋅ digit
          ∣ Chr "0" ⋅ Cls (in_range "1" "9")
          ∣ Cls (in_range "1" "9")
          ∣ Chr " " ⋅ Cls (in_range "1" "9"))
   ⋅ Chr "."
   ⋅ Grp 2 (Chr "1" ⋅ Cls (in_range "0" "2")
            ∣ Chr "0" ⋅ Cls (in_range "1" "9")
            ∣ Cls (in_range "1" "9"))
   ⋅ Chr "."
   ⋅ Grp 3 (digit ⋅ digit ⋅ digit ⋅ digit))%re.

Definition is_leap (y : Z) : bool :=
  (y mod 4 =? 0) && (negb (y mod 100 =? 0) || (y mod 400 =? 0)).

Definition days_in_month (y m : Z) : Z :=
  if m =? 2 then (if is_leap y then 29 else 28)
  else if (m =? 4) || (m =? 6) || (m =? 9) || (m =? 11) then 30
  else 31.

Record datetime : Type := Datetime { dt_year : Z; dt_month : Z; dt_day : Z }.

(** [datetime(year, month, day)] *)
Definition make_datetime (y m d : Z) : result datetime :=
  if (1 <=? y) && (y <=? 9999) && (1 <=? m) && (m <=? 12)
     && (1 <=? d) && (d <=? days_in_month y m)
  then Ok (Datetime y m d)
  else Raise ValueError.

(** [int] of a captured group: digits, after an optional leading blank. *)
Definition group_int (n : nat) (caps : captures) : Z :=
  digits_val 0 (remove_spaces (default "" (group n caps))).

Definition strptime (value : string) : result datetime :=
  match re_match STRPTIME_FORMAT value with
  | None => Raise ValueError
  | Some found =>
      if (m_end found =? String.length value)%nat
      then make_datetime (group_int 3 (m_groups found))
                         (group_int 2 (m_groups found))
                         (group_int 1 (m_groups found))
      else Raise ValueError
  end.

(** A [datetime] object is always truthy. *)
Definition datetime_bool (_ : datetime) : bool := true.

(** ** Fields *)

Inductive field_class : Type :=
| NameField
| PhoneField
| EmailField
| BirthdayField
| NoteField.

Definition field_description (cls : field_class) : string :=
  match cls with
  | NameField => "Name"
  | PhoneField => "Phone"
  | EmailField => "Email"
  | BirthdayField => "Birthday"
  | NoteField => "Note"
  end.

(** A field object: its class, its [value], and the three attributes that
    [PhoneField] adds (they stay [""] on the other classes, which do not
    have them). *)
Record DataField : Type := mkField {
  cls : field_class;
  value : string;
  country_code : string;
  operator_code : string;
  phone_number : string
}.

Definition plain_field (c : field_class) (v : string) : DataField :=
  mkField c v "" "" "".

(** [PHONE_REGEX = ^\+?(\d{2})?\(?(0\d{2})\)?(\d{7}$)] *)
Definition PHONE_REGEX : regex :=
  (Bol ⋅ Opt (Chr "+") ⋅ Opt (Grp 1 (rep 2 digit)) ⋅ Opt (Chr "(")
   ⋅ Grp 2 (Chr "0" ⋅ rep 2 digit) ⋅ Opt (Chr ")")
   ⋅ Grp 3 (rep 7 digit ⋅ Eol))%re.

(** [EMAIL_REGEX = [^@]+@[^@]+\.[^@]+] *)
Definition EMAIL_REGEX : regex :=
  (Plus not_at ⋅ Chr "@" ⋅ Plus not_at ⋅ Chr "." ⋅ Plus not_at)%re.

(** [f"{x}"] of a group that may be [None] *)
Definition fmt_group (g : option string) : string := default "None" g.

(** [validate] of each class, as the state the field object is left in
    ([Ok]) or the exception it raises before any attribute is assigned. *)
Definition PhoneField_validate (value : string) : result DataField :=
  let value := remove_spaces value in
  match re_search PHONE_REGEX value with
  | None => Raise (IncorrectInput ("No phone number found in " +:+ value))
  | Some search =>
      let country := group 1 (m_groups search) in
      let operator := group 2 (m_groups search) in
      let phone := group 3 (m_groups search) in
      match operator with
      | None => Raise (IncorrectInput ("Operator code not found in " +:+ value))
      | Some operator =>
          let country_code := default "38" country in
          Ok (mkField PhoneField
                ("+" +:+ country_code +:+ operator +:+ fmt_group phone)
                country_code operator (fmt_group phone))
      end
  end.

Definition EmailField_validate (value : string) : result DataField :=
  match re_match EMAIL_REGEX value with
  | None => Raise (IncorrectInput (value +:+ " is not an email."))
  | Some _ => Ok (plain_field EmailField value)
  end.

Definition BirthdayField_validate (value : string) : result DataField :=
  dt ← strptime value;
  if negb (datetime_bool dt)
  then Raise (IncorrectInput (value +:+ " is not a date dd.mm.yyy!"))
  else Ok (plain_field BirthdayField value).

Definition validate (c : field_class) (value : string) : result DataField :=
  match c with
  | NameField => Ok (plain_field NameField value)
  | NoteField => Ok (plain_field NoteField value)
  | BirthdayField => BirthdayField_validate value
  | PhoneField => PhoneField_validate value
  | EmailField => EmailField_validate value
  end.

(** [field_class(value)]: the constructor runs [validate]. *)
Definition new_field (c : field_class) (value : string) : result DataField :=
  validate c value.

(** [item in field] *)
Definition field_contains (item : string) (f : DataField) : bool :=
  str_contains item (value f).

Definition REGISTERED_FIELDS : list (string * field_class) :=
  [ (field_description NameField, NameField);
    (field_description PhoneField, PhoneField);
    (field_description EmailField, EmailField);
    (field_description BirthdayField, BirthdayField);
    (field_description NoteField, NoteField) ].

Fixpoint str_lookup {V} (d : list (string * V)) (k : string) : option V :=
  match d with
  | [] => None
  | (k', v) :: rest => if String.eqb k' k then Some v else str_lookup rest k
  end.

(** ** Documents

    The tree [json.loads] returns for a text of the shape the program
    dumps: an object of contact objects; each member of a contact object is
    [null] or an array of field objects; each member of a field object is a
    string.  [str_lookup] reads a key, [None] standing for [KeyError]. *)

Definition field_doc : Type := list (string * string).
Definition contact_doc : Type := list (string * option (list field_doc)).
Definition document : Type := list (string * contact_doc).

Definition getitem {V} (d : list (string * V)) (k : string) : result V :=
  match str_lookup d k with
  | Some v => Ok v
  | None => Raise KeyError
  end.

Definition DataField_to_json (f : DataField) : field_doc :=
  [ ("value", value f); ("field_name", field_description (cls f)) ].

Definition field_decoder (field_dict : field_doc) : result DataField :=
  let attempt :=
    name ← getitem field_dict "field_name";
    field_class ← getitem REGISTERED_FIELDS name;
    raw ← getitem field_dict "value";
    new_field field_class raw in
  match attempt with
  | Raise KeyError =>
      Raise (FieldDecodeError
               "Wrong message format. 'field_name' and 'value' required")
  | r => r
  end.

(** ** Contact *)

Record Contact : Type := mkContact {
  fields : list DataField;
  phone : string;
  birthday : string;
  mail : string;
  note : string
}.

(** [Contact()] *)
Definition Contact_init : Contact := mkContact [] "" "" "" "".

Definition set_fields (c : Contact) (l : list DataField) : Contact :=
  mkContact l (phone c) (birthday c) (mail c) (note c).

Module Contact.

Definition to_json (c : Contact) : contact_doc :=
  [ ("fields", Some (DataField_to_json <$> fields c)) ].

(** [add]: the new field object goes last; [index] finds it (a new
    object, equal to no other) at the position it was appended at. *)
Definition add (field_item : DataField) : M Contact Z :=
  fun self =>
    (Ok (Z.of_nat (length (fields self))),
     set_fields self (fields self ++ [field_item])).

Fixpoint from_json_loop (field_list : list field_doc) : M Contact unit :=
  match field_list with
  | [] => mret tt
  | field_dict :: rest =>
      field ← lift (field_decoder field_dict);
      add field;;
      from_json_loop rest
  end.

Definition from_json (dict_contact : contact_doc) : M Contact unit :=
  field_list ← lift (getitem dict_contact "fields");
  match field_list with
  | Some ((_ :: _) as l) => from_json_loop l
  | _ => mret tt
  end.

Definition name (self : Contact) : string :=
  let names :=
    value <$> filter (fun f => field_description (cls f) = "Name") (fields self) in
  let name := match names with [] => "" | _ => str_join " " names end in
  let result := str_join " " (str_chars name) in
  if String.eqb result " " then "No name" else result.

Definition replace (index : pyval) (field_item : DataField) : M Contact unit :=
  index_error_decorator (fun self =>
    match index with
    | VInt i =>
        match list_setitem (fields self) i field_item with
        | Ok l => (Ok tt, set_fields self l)
        | Raise e => (Raise e, self)
        end
    | VStr _ => (Raise TypeError, self)
    end).

Definition delete (idx : pyval) : M Contact unit :=
  index_error_decorator (
    idx ← lift (py_int idx);
    self ← get;
    l ← lift (list_pop (fields self) idx);
    put (set_fields self l)).

(** [update]: the field object at [field_idx] validates the new value
    and, when that succeeds, is the one that changes. *)
Definition update (field_idx : pyval) (value : string) : M Contact unit :=
  index_error_decorator (
    field_idx ← lift (py_int field_idx);
    self ← get;
    field ← lift (list_getitem (fields self) field_idx);
    field' ← lift (validate (cls field) value);
    l ← lift (list_setitem (fields self) field_idx field');
    put (set_fields self l)).

Fixpoint field_search_loop (l : list DataField) (field_name search_value : string) : bool :=
  match l with
  | [] => false
  | field :: rest =>
      if String.eqb (field_description (cls field)) field_name
      then field_contains search_value field
      else field_search_loop rest field_name search_value
  end.

Definition field_search (self : Contact) (field_name search_value : string) : bool :=
  field_search_loop (fields self) field_name search_value.

(** [item in contact] *)
Definition contains (self : Contact) (item : string) : bool :=
  existsb (field_contains item) (fields self).

(** [len(contact)] *)
Definition __len__ (self : Contact) : Z := Z.of_nat (length (fields self)).

(** [contact[key]] *)
Definition __getitem__ (self : Contact) (key : pyval) : result DataField :=
  match key with
  | VInt i => list_getitem (fields self) i
  | VStr _ => Raise TypeError
  end.

(** The loop of [get_birthday], [get_mail] and [get_note]: the value of the
    first field with the given description, if there is one. *)
Fixpoint first_value (l : list DataField) (description : string) : option string :=
  match l with
  | [] => None
  | field :: rest =>
      if String.eqb (field_description (cls field)) description
      then Some (value field)
      else first_value rest description
  end.

(** [get_birthday] falls off its loop when there is no Birthday field and
    returns [None]. *)
Definition get_birthday (self : Contact) : option string :=
  first_value (fields self) "Birthday".

Definition get_phone (self : Contact) : string :=
  let phones :=
    value <$> filter (fun f => field_description (cls f) = "Phone") (fields self) in
  match phones with [] => "" | _ => str_join "; " phones end.

Definition get_mail (self : Contact) : string :=
  default "" (first_value (fields self) "Email").

Definition get_note (self : Contact) : string :=
  default "" (first_value (fields self) "Note").

(** [multiple_search]: [search_items] holds the keyword arguments, name
    and value, in the order they were given. *)
Fixpoint multiple_search_loop (self : Contact) (items : list (string * string)) : bool :=
  match items with
  | [] => true
  | (field_name, search_value) :: rest =>
      let current_search := field_search self field_name search_value in
      if negb current_search then false else multiple_search_loop self rest
  end.

Definition multiple_search (self : Contact) (search_items : list (string * string)) : bool :=
  multiple_search_loop self search_items.

Definition __str__ (self : Contact) : string := name self.

End Contact.

(** ** AddressBook *)

Record AddressBook : Type := mkBook {
  contacts : dict Contact;
  last_contact_id : Z;
  last_contacts_id : option Z   (* the attribute [loads] assigns *)
}.

(** [AddressBook()] *)
Definition AddressBook_init : AddressBook := mkBook [] 0 None.

(** [str(n)] for an [int] key of the dumped object *)
Definition str_of_int (n : Z) : string := NilZero.string_of_int (Z.to_int n).

Module AddressBook.

Definition dumps (self : AddressBook) : document :=
  (fun '(rec_id, rec) => (str_of_int rec_id, Contact.to_json rec)) <$> contacts self.

Definition add (contact : Contact) : M AddressBook Z :=
  fun self =>
    let contact_id := last_contact_id self in
    (Ok contact_id,
     mkBook (dict_set (contacts self) (last_contact_id self) contact)
            (last_contact_id self + 1)
            (last_contacts_id self)).

Fixpoint loads_loop (items : document) : M AddressBook unit :=
  match items with
  | [] => mret tt
  | (_, contact_list) :: rest =>
      match Contact.from_json contact_list Contact_init with
      | (Raise e, _) => raise e
      | (Ok _, contact) => add contact;; loads_loop rest
      end
  end.

Definition loads (json_contacts : document) : M AddressBook unit :=
  (fun self => (Ok tt, mkBook [] (last_contact_id self) (Some 0)));;
  loads_loop json_contacts.

Definition replace (contact_id : pyval) (contact : Contact) : M AddressBook unit :=
  fun self =>
    match contact_id with
    | VInt k =>
        if dict_mem (contacts self) k
        then (Ok tt, mkBook (dict_set (contacts self) k contact)
                            (last_contact_id self) (last_contacts_id self))
        else (Raise KeyError, self)
    | VStr _ => (Raise KeyError, self)
    end.

Definition delete (contact_id : pyval) : M AddressBook unit :=
  index_error_decorator (
    key ← lift (py_int contact_id);
    self ← get;
    match dict_pop (contacts self) key with
    | Some d => put (mkBook d (last_contact_id self) (last_contacts_id self))
    | None => raise KeyError
    end).

Definition clear : M AddressBook unit :=
  fun self => (Ok tt, mkBook [] 0 (last_contacts_id self)).

(** [book[key]] *)
Definition __getitem__ (self : AddressBook) (key : pyval) : result Contact :=
  match key with
  | VInt k => match dict_get (contacts self) k with
              | Some contact => Ok contact
              | None => Raise KeyError
              end
  | VStr _ => Raise KeyError
  end.

(** The loop of the two searches: [result[contact_id] = contact] for every
    item of the map that passes the test. *)
Definition search_loop (test : Contact -> bool) (items : dict Contact) : dict Contact :=
  foldl (fun result '(contact_id, contact) =>
           if test contact then dict_set result contact_id contact else result)
        [] items.

Definition str_search (self : AddressBook) (search_str : string) : dict Contact :=
  search_loop (fun contact => Contact.contains contact search_str) (contacts self).

Definition multiple_search (self : AddressBook) (search_items : list (string * string))
    : dict Contact :=
  search_loop (fun contact => Contact.multiple_search contact search_items)
              (contacts self).

End AddressBook.

(** ** Sequences of address-book operations *)

Inductive book_op : Type :=
| OpAdd (contact : Contact)
| OpReplace (contact_id : pyval) (contact : Contact)
| OpDelete (contact_id : pyval)
| OpClear
| OpLoads (json_contacts : document).

(** The book an operation leaves behind, whether it returned or raised. *)
Definition run_op (o : book_op) (b : AddressBook) : AddressBook :=
  match o with
  | OpAdd c => (AddressBook.add c b).2
  | OpReplace k c => (AddressBook.replace k c b).2
  | OpDelete k => (AddressBook.delete k b).2
  | OpClear => (AddressBook.clear b).2
  | OpLoads doc => (AddressBook.loads doc b).2
  end.

Definition run_ops (ops : list book_op) (b : AddressBook) : AddressBook :=
  foldl (fun b o => run_op o b) b ops.

(** The id an operation is asked to rebind: the one given to [replace]. *)
Definition rebinds (o : book_op) : option Z :=
  match o with
  | OpReplace (VInt k) _ => Some k
  | _ => None
  end.

(** Every key of the map is below the counter. *)
Definition keys_below (b : AddressBook) : Prop :=
  Forall (fun k => k < last_contact_id b) (dict_keys (contacts b)).

(** ... and, the map being a [dict], no key occurs twice. *)
Definition book_inv (b : AddressBook) : Prop :=
  keys_below b /\ NoDup (dict_keys (contacts b)).

(** Id [k], if it is in the map before and after, names the same contact. *)
Definition keeps_binding (k : Z) (b b' : AddressBook) : Prop :=
  forall c c',
    dict_get (contacts b) k = Some c ->
    dict_get (contacts b') k = Some c' ->
    c' = c.

(** The contacts the loop of [loads] adds before it stops, and the
    exception that stops it, if any. *)
Fixpoint decode_prefix (items : document) : list Contact * option exn :=
  match items with
  | [] => ([], None)
  | (_, contact_list) :: rest =>
      match Contact.from_json contact_list Contact_init with
      | (Raise e, _) => ([], Some e)
      | (Ok _, contact) =>
          let '(cs, r) := decode_prefix rest in (contact :: cs, r)
      end
  end.

Definition outcome (r : option exn) : result unit :=
  match r with
  | None => Ok tt
  | Some e => Raise e
  end.

(** Contacts numbered from [n] on, in order. *)
Definition numbered (n : Z) (cs : list Contact) : dict Contact :=
  imap (fun i c => (n + Z.of_nat i, c)) cs.

(** ** The statements of the specification, in its own words *)

(** "strip all whitespace from input" *)
Definition remove_whitespace (s : string) : string :=
  str_filter (fun c => negb (is_space c)) s.

Definition digits (n : nat) (s : string) : Prop :=
  String.length s = n /\ str_all is_digit s = true.

(** The phone pattern: an optional [+], an optional 2-digit country code
    [cc], the operator code [op] (a [0] and two more digits) in optional
    parentheses, and the 7-digit subscriber number [num] that ends the
    string. *)
Definition phone_pattern (s : string) (cc : option string) (op num : string) : Prop :=
  exists plus lp rp : string,
    (plus = "" \/ plus = "+") /\
    (lp = "" \/ lp = "(") /\
    (rp = "" \/ rp = ")") /\
    (forall c, cc = Some c -> digits 2 c) /\
    (exists d, op = String "0" d /\ digits 2 d) /\
    digits 7 num /\
    s = plus +:+ default "" cc +:+ lp +:+ op +:+ rp +:+ num.

(** A field object "whose field_name is not in the registry (or lacks
    field_name/value)" *)
Definition undecodable (fd : field_doc) : Prop :=
  str_lookup fd "field_name" = None \/
  str_lookup fd "value" = None \/
  exists name,
    str_lookup fd "field_name" = Some name /\
    str_lookup REGISTERED_FIELDS name = None.

Definition DECODE_ERROR : exn :=
  FieldDecodeError "Wrong message format. 'field_name' and 'value' required".

(** "true iff some field of the given kind's value contains substring" *)
Definition field_search_spec (c : Contact) (kind substring : string) : bool :=
  existsb (fun f => String.eqb (field_description (cls f)) kind
                    && str_contains substring (value f)) (fields c).

(** The groups a match of [r] cannot leave unset. *)
Fixpoint mandatory (r : regex) : list nat :=
  match r with
  | Cat r1 r2 => mandatory r1 ++ mandatory r2
  | Grp n r1 => n :: mandatory r1
  | _ => []
  end.

(** What a successful run of the matcher went through, priorities left
    out: [matches r pos s caps pos' s' caps'] when [r] can consume the part
    of [s] before [s'], moving from offset [pos] to [pos'] and from the
    groups [caps] to [caps']. *)
Inductive plus_run (p : ascii -> bool) : nat -> string -> nat -> string -> Prop :=
| plus_run_one c pos s :
    p c = true -> plus_run p pos (String c s) (S pos) s
| plus_run_more c pos s pos' s' :
    p c = true -> plus_run p (S pos) s pos' s' ->
    plus_run p pos (String c s) pos' s'.

Inductive matches :
  regex -> nat -> string -> captures -> nat -> string -> captures -> Prop :=
| matches_Eps pos s caps :
    matches Eps pos s caps pos s caps
| matches_Chr c pos s caps :
    matches (Chr c) pos (String c s) caps (S pos) s caps
| matches_Cls p a pos s caps :
    p a = true -> matches (Cls p) pos (String a s) caps (S pos) s caps
| matches_Bol s caps :
    matches Bol 0 s caps 0 s caps
| matches_Eol pos s caps :
    at_eol s = true -> matches Eol pos s caps pos s caps
| matches_Cat r1 r2 pos s caps pos1 s1 caps1 pos2 s2 caps2 :
    matches r1 pos s caps pos1 s1 caps1 ->
    matches r2 pos1 s1 caps1 pos2 s2 caps2 ->
    matches (Cat r1 r2) pos s caps pos2 s2 caps2
| matches_Alt_l r1 r2 pos s caps pos' s' caps' :
    matches r1 pos s caps pos' s' caps' ->
    matches (Alt r1 r2) pos s caps pos' s' caps'
| matches_Alt_r r1 r2 pos s caps pos' s' caps' :
    matches r2 pos s caps pos' s' caps' ->
    matches (Alt r1 r2) pos s caps pos' s' caps'
| matches_Opt_some r pos s caps pos' s' caps' :
    matches r pos s caps pos' s' caps' ->
    matches (Opt r) pos s caps pos' s' caps'
| matches_Opt_none r pos s caps :
    matches (Opt r) pos s caps pos s caps
| matches_Plus p pos s caps pos' s' :
    plus_run p pos s pos' s' ->
    matches (Plus p) pos s caps pos' s' caps
| matches_Grp n r pos s caps pos' s' caps' :
    matches r pos s caps pos' s' caps' ->
    matches (Grp n r) pos s caps pos' s'
            ((n, String.substring 0 (pos' - pos) s) :: caps').

(** The invariant of a field object: its [value] passes the validation of
    its class and comes out as it is. *)
Definition field_ok (f : DataField) : Prop :=
  validate (cls f) (value f) = Ok f.

(** A contact as the program builds them: the four attributes of
    [__init__] untouched, every field valid. *)
Definition contact_ok (c : Contact) : Prop :=
  c = set_fields Contact_init (fields c) /\ Forall field_ok (fields c).

(** A book all of whose contacts are well formed, and the operations that
    hand it such contacts. *)
Definition book_ok (b : AddressBook) : Prop :=
  Forall (fun kc => contact_ok kc.2) (contacts b).

Definition op_ok (o : book_op) : Prop :=
  match o with
  | OpAdd c | OpReplace _ c => contact_ok c
  | _ => True
  end.

(** ** Shapes of accepted input *)

(** What [PHONE_REGEX] accepts: the phone pattern, then nothing or one
    final newline (which [$] lets through). *)
Definition phone_input (s : string) (cc : option string) (op num : string) : Prop :=
  exists body nl : string,
    s = body +:+ nl /\
    (nl = "" \/ nl = String "010" "") /\
    phone_pattern body cc op num.

(** The texts the embedding holds: every character is a code point below
    256, where the decimal digits of [\d] are ['0'..'9'] and no others. *)
Definition latin1 (s : string) : Prop :=
  Forall (fun c => (nat_of_ascii c < 256)%nat) (list_ascii_of_string s).

(** The field that [PhoneField] builds from the three parts. *)
Definition canonical_phone (cc : option string) (op num : string) : DataField :=
  mkField PhoneField ("+" +:+ default "38" cc +:+ op +:+ num)
          (default "38" cc) op num.

(** A non-empty string without ["@"]. *)
Definition at_free (u : string) : Prop :=
  u <> "" /\ str_all not_at u = true.

(** What [EMAIL_REGEX.match] accepts: [u@v.w] at the start, whatever
    follows. *)
Definition email_shape (s : string) : Prop :=
  exists u v w rest : string,
    s = u +:+ "@" +:+ v +:+ "." +:+ w +:+ rest /\
    at_free u /\ at_free v /\ at_free w.

(** An operation that is neither [clear] nor [loads]. *)
Definition is_edit (o : book_op) : bool :=
  match o with
  | OpAdd _ | OpReplace _ _ | OpDelete _ => true
  | OpClear | OpLoads _ => false
  end.

(** [hay] can be cut into [pre], [needle] and [post]. *)
Definition substring_of (needle hay : string) : Prop :=
  exists pre post : string, hay = pre +:+ needle +:+ post.

(** Sample data of the statements below. *)
Definition phone_099 : DataField :=
  mkField PhoneField "+380991234567" "38" "099" "1234567".
Definition phone_050 : DataField :=
  mkField PhoneField "+380501112233" "38" "050" "1112233".
Definition alice : Contact :=
  mkContact [plain_field NameField "Alice"; phone_099] "" "" "" "".
Definition two_phones : Contact :=
  mkContact [phone_099; phone_050] "" "" "" "".
Definition born : Contact :=
  mkContact [plain_field BirthdayField "01.02.2020"] "" "" "" "".

(** * Properties *)

(** ** The matcher *)

Section MatcherFacts.
Context {A : Type}.

Lemma plus_loop_inv p pos s (k : nat -> string -> option A) x :
  plus_loop p pos s k = Some x -> exists pos' s', k pos' s' = Some x.
Proof.
  revert pos. induction s as [|c s IH]; intros pos; simpl; [done|].
  destruct (p c); [|done].
  destruct (plus_loop p (S pos) s k) eqn:E.
  - intros [= ->]. eauto.
  - eauto.
Qed.

Lemma group_cons_is_Some n m v caps :
  is_Some (group n caps) \/ n = m -> is_Some (group n ((m, v) :: caps)).
Proof.
  simpl. destruct (Nat.eqb_spec m n); [eauto|].
  intros [?|?]; [done|congruence].
Qed.

(** A match reaches its continuation with every earlier group still set
    and every mandatory group of [r] set. *)
Lemma rmatch_mandatory r :
  forall pos s caps (k : nat -> string -> captures -> option A) x,
    rmatch r pos s caps k = Some x ->
    exists pos' s' caps',
      k pos' s' caps' = Some x /\
      forall n, is_Some (group n caps) \/ n ∈ mandatory r ->
                is_Some (group n caps').
Proof.
  induction r as [|c|p| | |r1 IH1 r2 IH2|r1 IH1 r2 IH2|r1 IH1|p|m r1 IH1];
    intros pos s caps k x; simpl.
  - intros H. exists pos, s, caps. split; [done|].
    intros n [?|?%elem_of_nil]; done.
  - destruct s as [|a s]; [done|]. destruct (Ascii.eqb a c); [|done].
    intros H. exists (S pos), s, caps. split; [done|].
    intros n [?|?%elem_of_nil]; done.
  - destruct s as [|a s]; [done|]. destruct (p a); [|done].
    intros H. exists (S pos), s, caps. split; [done|].
    intros n [?|?%elem_of_nil]; done.
  - destruct (pos =? 0)%nat; [|done].
    intros H. exists pos, s, caps. split; [done|].
    intros n [?|?%elem_of_nil]; done.
  - destruct (at_eol s); [|done].
    intros H. exists pos, s, caps. split; [done|].
    intros n [?|?%elem_of_nil]; done.
  - intros H. apply IH1 in H as (pos1 & s1 & caps1 & H & Hg1).
    apply IH2 in H as (pos2 & s2 & caps2 & H & Hg2).
    exists pos2, s2, caps2. split; [done|].
    intros n [?|[?|?]%elem_of_app]; apply Hg2; eauto.
  - destruct (rmatch r1 pos s caps k) eqn:E.
    + intros [= ->]. apply IH1 in E as (pos1 & s1 & caps1 & H & Hg1).
      exists pos1, s1, caps1. split; [done|].
      intros n [?|?%elem_of_nil]; [|done]. apply Hg1; eauto.
    + intros H. apply IH2 in H as (pos1 & s1 & caps1 & H & Hg1).
      exists pos1, s1, caps1. split; [done|].
      intros n [?|?%elem_of_nil]; [|done]. apply Hg1; eauto.
  - destruct (rmatch r1 pos s caps k) eqn:E.
    + intros [= ->]. apply IH1 in E as (pos1 & s1 & caps1 & H & Hg1).
      exists pos1, s1, caps1. split; [done|].
      intros n [?|?%elem_of_nil]; [|done]. apply Hg1; eauto.
    + intros H. exists pos, s, caps. split; [done|].
      intros n [?|?%elem_of_nil]; done.
  - intros H. apply plus_loop_inv in H as (pos1 & s1 & H).
    exists pos1, s1, caps. split; [done|].
    intros n [?|?%elem_of_nil]; done.
  - intros H. apply IH1 in H as (pos1 & s1 & caps1 & H & Hg1).
    eexists pos1, s1, _. split; [exact H|].
    intros n [?|[->|?]%elem_of_cons]; apply group_cons_is_Some; eauto.
Qed.
End MatcherFacts.

Lemma search_from_mandatory r pos s m n :
  search_from r pos s = Some m ->
  n ∈ mandatory r ->
  is_Some (group n (m_groups m)).
Proof.
  revert pos. induction s as [|c s IH]; intros pos; simpl.
  - destruct (rmatch r pos "" [] _) eqn:E; [|done].
    intros [= ->] Hn.
    apply rmatch_mandatory in E as (? & ? & caps' & [= <-] & Hg).
    simpl. eauto.
  - destruct (rmatch r pos (String c s) [] _) eqn:E; [|by eauto].
    intros [= ->] Hn.
    apply rmatch_mandatory in E as (? & ? & caps' & [= <-] & Hg).
    simpl. eauto.
Qed.

(** The matcher is sound for [matches]. *)

Section MatcherSound.
Context {A : Type}.

Lemma plus_loop_sound p pos s (k : nat -> string -> option A) x :
  plus_loop p pos s k = Some x ->
  exists pos' s', plus_run p pos s pos' s' /\ k pos' s' = Some x.
Proof.
  revert pos. induction s as [|c s IH]; intros pos; simpl; [done|].
  destruct (p c) eqn:Hc; [|done].
  destruct (plus_loop p (S pos) s k) eqn:E.
  - intros [= ->]. apply IH in E as (pos' & s' & Hrun & Hk).
    exists pos', s'. split; [|done]. by apply plus_run_more.
  - intros Hk. exists (S pos), s. split; [|done]. by apply plus_run_one.
Qed.

Lemma rmatch_sound r :
  forall pos s caps (k : nat -> string -> captures -> option A) x,
    rmatch r pos s caps k = Some x ->
    exists pos' s' caps',
      matches r pos s caps pos' s' caps' /\ k pos' s' caps' = Some x.
Proof.
  induction r as [|c|p| | |r1 IH1 r2 IH2|r1 IH1 r2 IH2|r1 IH1|p|m r1 IH1];
    intros pos s caps k x; simpl.
  - intros H. exists pos, s, caps. split; [constructor|done].
  - destruct s as [|a s]; [done|]. destruct (Ascii.eqb_spec a c) as [->|]; [|done].
    intros H. exists (S pos), s, caps. split; [constructor|done].
  - destruct s as [|a s]; [done|]. destruct (p a) eqn:Ha; [|done].
    intros H. exists (S pos), s, caps. split; [by constructor|done].
  - destruct pos; [|done].
    intros H. exists O, s, caps. split; [constructor|done].
  - destruct (at_eol s) eqn:Hs; [|done].
    intros H. exists pos, s, caps. split; [by constructor|done].
  - intros H. apply IH1 in H as (pos1 & s1 & caps1 & H1 & H).
    apply IH2 in H as (pos2 & s2 & caps2 & H2 & H).
    exists pos2, s2, caps2. split; [by econstructor|done].
  - destruct (rmatch r1 pos s caps k) eqn:E.
    + intros [= ->]. apply IH1 in E as (pos1 & s1 & caps1 & H1 & H).
      exists pos1, s1, caps1. split; [by apply matches_Alt_l|done].
    + intros H. apply IH2 in H as (pos1 & s1 & caps1 & H1 & H).
      exists pos1, s1, caps1. split; [by apply matches_Alt_r|done].
  - destruct (rmatch r1 pos s caps k) eqn:E.
    + intros [= ->]. apply IH1 in E as (pos1 & s1 & caps1 & H1 & H).
      exists pos1, s1, caps1. split; [by apply matches_Opt_some|done].
    + intros H. exists pos, s, caps. split; [apply matches_Opt_none|done].
  - intros H. apply plus_loop_sound in H as (pos1 & s1 & H1 & H).
    exists pos1, s1, caps. split; [by constructor|done].
  - intros H. apply IH1 in H as (pos1 & s1 & caps1 & H1 & H).
    eexists pos1, s1, _. split; [by constructor|done].
Qed.
End MatcherSound.

Lemma search_from_sound r pos s m :
  search_from r pos s = Some m ->
  exists pos0 s0 s', matches r pos0 s0 [] (m_end m) s' (m_groups m).
Proof.
  revert pos. induction s as [|c s IH]; intros pos; simpl.
  - destruct (rmatch r pos "" [] _) eqn:E; [|done].
    intros [= ->]. apply rmatch_sound in E as (? & ? & ? & H & [= <-]). eauto.
  - destruct (rmatch r pos (String c s) [] _) eqn:E; [|by eauto].
    intros [= ->]. apply rmatch_sound in E as (? & ? & ? & H & [= <-]). eauto.
Qed.

Ltac inv_matches :=
  repeat match goal with
  | H : matches Eps _ _ _ _ _ _ |- _ => inversion H; subst; clear H
  | H : matches (Chr _) _ _ _ _ _ _ |- _ => inversion H; subst; clear H
  | H : matches (Cls _) _ _ _ _ _ _ |- _ => inversion H; subst; clear H
  | H : matches Bol _ _ _ _ _ _ |- _ => inversion H; subst; clear H
  | H : matches Eol _ _ _ _ _ _ |- _ => inversion H; subst; clear H
  | H : matches (Cat _ _) _ _ _ _ _ _ |- _ => inversion H; subst; clear H
  | H : matches (Opt _) _ _ _ _ _ _ |- _ => inversion H; subst; clear H
  | H : matches (Grp _ _) _ _ _ _ _ _ |- _ => inversion H; subst; clear H
  end.

(** ** Phone numbers *)

(** [PhoneField.validate] has two outcomes only: the field, or the
    "No phone number found" error. *)
Lemma PhoneField_validate_outcomes x :
  match PhoneField_validate x with
  | Ok f => cls f = PhoneField
  | Raise e => e = IncorrectInput ("No phone number found in " +:+ remove_spaces x)
  end.
Proof.
  unfold PhoneField_validate.
  destruct (re_search PHONE_REGEX (remove_spaces x)) as [m|] eqn:E; [|done].
  assert (is_Some (group 2 (m_groups m))) as [op ->]; [|done].
  eapply search_from_mandatory; [exact E|]. simpl. apply list_elem_of_here.
Qed.

Lemma is_digit_not c d :
  is_digit c = true -> is_digit d = false -> Ascii.eqb c d = false.
Proof.
  intros Hc Hd. destruct (Ascii.eqb_spec c d); [|done]. congruence.
Qed.

Lemma digits_0 s : digits 0 s -> s = "".
Proof. intros [H _]. by destruct s. Qed.

Lemma digits_S n s :
  digits (S n) s ->
  exists c s', s = String c s' /\ is_digit c = true /\ digits n s'.
Proof.
  intros [Hl Hd]. destruct s as [|c s]; [done|]. simpl in *.
  apply andb_prop in Hd as [? ?]. exists c, s.
  repeat split; [done| |done]. congruence.
Qed.

Ltac digits_inv :=
  repeat match goal with
  | H : digits 0 _ |- _ => apply digits_0 in H; subst
  | H : digits (S _) _ |- _ =>
      let c := fresh "c" in
      let s := fresh "s" in
      let Hc := fresh "Hc" in
      apply digits_S in H as (c & s & -> & Hc & H)
  end.

Local Opaque is_digit.

(** Runs the matcher on a string of known shape whose digits are symbolic. *)
Ltac run_matcher :=
  repeat first
    [ progress cbn
    | match goal with
      | H : is_digit ?c = true |- context [is_digit ?c] => rewrite H
      | H : is_digit ?c = true |- context [Ascii.eqb ?c "+"] =>
          rewrite (is_digit_not c "+" H) by (vm_compute; reflexivity)
      | H : is_digit ?c = true |- context [Ascii.eqb ?c "("] =>
          rewrite (is_digit_not c "(" H) by (vm_compute; reflexivity)
      | H : is_digit ?c = true |- context [Ascii.eqb ?c ")"] =>
          rewrite (is_digit_not c ")" H) by (vm_compute; reflexivity)
      | H : is_digit ?c = true |- context [Ascii.eqb ?c " "] =>
          rewrite (is_digit_not c " " H) by (vm_compute; reflexivity)
      | |- context [is_digit "0"] => change (is_digit "0") with true
      | |- context [is_digit "("] => change (is_digit "(") with false
      | |- context [is_digit ")"] => change (is_digit ")") with false
      | |- context [is_digit "+"] => change (is_digit "+") with false
      | |- context [Ascii.eqb ?c "0"] => destruct (Ascii.eqb c "0")
      end ].

(** On an input that has the shape of the pattern once its spaces are
    removed, validation builds the canonical field. *)
Lemma PhoneField_validate_pattern x cc op num :
  phone_pattern (remove_spaces x) cc op num ->
  PhoneField_validate x =
    Ok (mkField PhoneField ("+" +:+ default "38" cc +:+ op +:+ num)
                (default "38" cc) op num).
Proof.
  intros (plus & lp & rp & Hplus & Hlp & Hrp & Hcc & (d & -> & Hd) & Hnum & Hx).
  unfold PhoneField_validate. rewrite Hx. clear x Hx.
  assert (cc = None \/ exists a b, cc = Some (String a (String b "")) /\
            is_digit a = true /\ is_digit b = true) as Hcc'.
  { destruct cc as [c|]; [right|by left].
    specialize (Hcc c eq_refl). digits_inv. eauto 6. }
  clear Hcc. digits_inv.
  unfold re_search, PHONE_REGEX.
  destruct Hcc' as [->|(a & b & -> & Ha & Hb)],
    Hplus as [-> | ->], Hlp as [-> | ->], Hrp as [-> | ->].
  all: cbv [String.append default fmt_group].
  all: run_matcher; reflexivity.
Qed.

Local Transparent is_digit.

Lemma substring_0_0 s : String.substring 0 0 s = "".
Proof. by destruct s. Qed.

Lemma digit_not_space c : is_digit c = true -> negb (Ascii.eqb c " ") = true.
Proof. intros H. by rewrite (is_digit_not c " " H). Qed.

Lemma digits_intro n s : String.length s = n -> str_all is_digit s = true -> digits n s.
Proof. by split. Qed.

Local Opaque is_digit.

Lemma PhoneField_validate_idem raw f :
  PhoneField_validate raw = Ok f -> PhoneField_validate (value f) = Ok f.
Proof.
  unfold PhoneField_validate at 1.
  destruct (re_search PHONE_REGEX (remove_spaces raw)) as [[e caps]|] eqn:E; [|done].
  apply search_from_sound in E as (pos0 & s0 & s' & H). simpl in *.
  cbv [PHONE_REGEX rep digit] in H. inv_matches; simpl.
  all: rewrite substring_0_0; intros [= <-]; cbn [value].
  all: match goal with
       | |- PhoneField_validate _ = Ok (mkField _ _ ?cc ?op ?num) =>
           apply (PhoneField_validate_pattern _ (Some cc) op num)
       end.
  all: exists "+", "", "".
  all: split; [by right|]; split; [by left|]; split; [by left|].
  all: split; [intros ? [= <-]; apply digits_intro; [done|]; cbn;
               repeat match goal with H : is_digit ?c = true |- context [is_digit ?c] => rewrite H end; done|].
  all: split; [eexists; split; [reflexivity|]; apply digits_intro; [reflexivity|]; cbn;
               repeat match goal with H : is_digit ?c = true |- context [is_digit ?c] => rewrite H end; done|].
  all: split; [apply digits_intro; [done|]; cbn;
               repeat match goal with H : is_digit ?c = true |- context [is_digit ?c] => rewrite H end; done|].
  all: cbv [String.append default remove_spaces]; cbn;
       repeat match goal with H : is_digit ?c = true |- context [Ascii.eqb ?c " "] =>
         rewrite (digit_not_space _ H) end; done.
Qed.

Local Transparent is_digit.

(** C2 (as amended).  For every input that matches the phone pattern once
    its space characters are removed, creating a Phone field succeeds and
    its value is ["+"] followed by the country code (["38"] when the input
    has none), the operator code and the subscriber number. *)
Theorem phone_value_canonical x cc op num :
  phone_pattern (remove_spaces x) cc op num ->
  exists f,
    new_field PhoneField x = Ok f /\
    value f = "+" +:+ default "38" cc +:+ op +:+ num.
Proof.
  intros H. eexists. split.
  - unfold new_field, validate. by apply PhoneField_validate_pattern.
  - done.
Qed.

Lemma phone_value_canonical_witness :
  phone_pattern (remove_spaces "+38 (099) 123 45 67") (Some "38") "099" "1234567" /\
  exists f,
    new_field PhoneField "+38 (099) 123 45 67" = Ok f /\
    value f = "+380991234567".
Proof.
  assert (phone_pattern (remove_spaces "+38 (099) 123 45 67")
            (Some "38") "099" "1234567") as H.
  { exists "+", "(", ")".
    split; [by right|]. split; [by right|]. split; [by right|].
    split; [by intros c [= <-]|]. split; [by exists "99"|]. done. }
  split; [exact H|].
  exact (phone_value_canonical "+38 (099) 123 45 67" (Some "38") "099" "1234567" H).
Defined.

(** C2 (as stated) fails: a tab is whitespace, the input below matches the
    pattern once all whitespace is removed, but only spaces are removed
    before matching and the field is refused. *)
Lemma phone_whitespace_counterexample :
  ~ (forall x cc op num,
       phone_pattern (remove_whitespace x) cc op num ->
       exists f,
         new_field PhoneField x = Ok f /\
         value f = "+" +:+ default "38" cc +:+ op +:+ num).
Proof.
  intros H.
  destruct (H ("099" +:+ String "009" "1234567") None "099" "1234567")
    as (f & Hf & _); [|by vm_compute in Hf].
  exists "", "", "".
  split; [by left|]. split; [by left|]. split; [by left|].
  split; [by intros c [=]|]. split; [by exists "99"|]. done.
Qed.

(** C4.  The operator group of [PHONE_REGEX] is not optional: an input
    without operator code does not match at all and gets the "No phone
    number found" error, and no input whatever gets "Operator code not
    found". *)
Theorem phone_operator_error_unreachable :
  new_field PhoneField "+381234567"
    = Raise (IncorrectInput "No phone number found in +381234567") /\
  forall x, new_field PhoneField x
    <> Raise (IncorrectInput ("Operator code not found in " +:+ remove_spaces x)).
Proof.
  split; [done|]. intros x Hx. unfold new_field, validate in Hx.
  pose proof (PhoneField_validate_outcomes x) as H. rewrite Hx in H.
  by injection H.
Qed.

(** ** Searching a contact *)

Lemma field_search_sound c kind sub :
  Contact.field_search c kind sub = true -> field_search_spec c kind sub = true.
Proof.
  unfold Contact.field_search, field_search_spec.
  induction (fields c) as [|f l IH]; simpl; [done|].
  unfold field_contains.
  destruct (String.eqb (field_description (cls f)) kind); simpl.
  - by intros ->.
  - intros H. by rewrite IH.
Qed.

(** [field_search] is the answer of the first field of the kind. *)
Lemma field_search_first c kind sub :
  Contact.field_search c kind sub =
    match filter (fun f => field_description (cls f) = kind) (fields c) with
    | [] => false
    | f :: _ => field_contains sub f
    end.
Proof.
  unfold Contact.field_search. induction (fields c) as [|f l IH]; [done|].
  simpl. rewrite filter_cons.
  destruct (String.eqb_spec (field_description (cls f)) kind);
    destruct (decide _); done.
Qed.

(** C3.  [field_search] answers from the first field of the kind and never
    looks at a later one: with two Phone fields of which only the second
    contains ["050"], it returns [False] although some Phone field contains
    the substring. *)
Theorem field_search_stops_at_first_field :
  Contact.field_search two_phones "Phone" "050" = false /\
  field_search_spec two_phones "Phone" "050" = true.
Proof. split; reflexivity. Qed.

(** ** The display name *)

Lemma name_without_Name_field c :
  Forall (fun f => field_description (cls f) <> "Name") (fields c) ->
  Contact.name c = "".
Proof.
  intros H. unfold Contact.name.
  replace (filter _ (fields c)) with (@nil DataField); [done|].
  symmetry. induction H as [|f l Hf Hl IH]; [done|].
  rewrite filter_cons. by destruct (decide _).
Qed.

Lemma spaced_is_blank s : str_join " " (str_chars s) = " " <-> s = " ".
Proof.
  destruct s as [|c1 [|c2 s]]; simpl; [done|done|].
  split; intros H; [|done]. exfalso. revert H.
  destruct (str_chars s); simpl; discriminate.
Qed.

Lemma spaced_not_fallback s : str_join " " (str_chars s) <> "No name".
Proof.
  destruct s as [|c1 [|c2 s]]; simpl; [done|done|].
  destruct (str_chars s); simpl; intros [=]; discriminate.
Qed.

(** The fallback is taken exactly when the joined Name values are one
    blank. *)
Lemma name_fallback_iff c :
  Contact.name c = "No name" <->
  str_join " " (value <$> filter (fun f => field_description (cls f) = "Name") (fields c)) = " ".
Proof.
  unfold Contact.name.
  set (names := value <$> filter _ (fields c)).
  assert (match names with [] => "" | _ :: _ => str_join " " names end
          = str_join " " names) as -> by by destruct names.
  destruct (String.eqb_spec (str_join " " (str_chars (str_join " " names))) " ") as [E|E].
  - split; [|done]. intros _. by apply spaced_is_blank.
  - split.
    + intros H. by apply spaced_not_fallback in H.
    + intros H. by apply spaced_is_blank in H.
Qed.

(** C5.  The fallback is taken only when the spaced-out name is exactly one
    blank: a contact without any Name field is displayed as the empty
    string, and a name of two blanks as three blanks, not as ["No name"]. *)
Theorem name_fallback_missed :
  Contact.name Contact_init = "" /\
  Contact.name (set_fields Contact_init [plain_field NameField "  "]) = "   ".
Proof. split; reflexivity. Qed.

(** ** Indices *)

(** C6.  [Contact.replace] does not pass its index through [int]: every
    string index, parsable or not, ends in the [TypeError] of the list
    assignment, which the decorator lets through; the contact is unchanged. *)
Theorem replace_does_not_parse_index s f c :
  Contact.replace (VStr s) f c = (Raise TypeError, c).
Proof. reflexivity. Qed.

(** With an [int] index, [replace] overwrites the addressed position or
    raises [IndexError]. *)
Lemma Contact_replace_int i f c :
  Contact.replace (VInt i) f c =
    match norm_index (fields c) i with
    | Some k => (Ok tt, set_fields c (<[k:=f]> (fields c)))
    | None => (Raise IndexError, c)
    end.
Proof.
  unfold Contact.replace, index_error_decorator, list_setitem.
  by destruct (norm_index (fields c) i).
Qed.

Lemma norm_index_Some {A} (l : list A) i k :
  norm_index l i = Some k ->
  (k < length l)%nat /\
  - Z.of_nat (length l) <= i < Z.of_nat (length l) /\
  k = Z.to_nat (if 0 <=? i then i else Z.of_nat (length l) + i).
Proof.
  unfold norm_index. intros H.
  repeat case_match; simplify_eq; lia.
Qed.

Lemma norm_index_None {A} (l : list A) i :
  norm_index l i = None <->
  ~ (- Z.of_nat (length l) <= i < Z.of_nat (length l)).
Proof.
  unfold norm_index.
  destruct (Z.leb_spec 0 i), (Z.ltb_spec i (Z.of_nat (length l))),
    (Z.leb_spec (- Z.of_nat (length l)) i), (Z.ltb_spec i 0); simpl;
    split; intros; try done; lia.
Qed.

Lemma norm_index_neg {A} (l : list A) i :
  - Z.of_nat (length l) <= i <= -1 ->
  norm_index l i = Some (Z.to_nat (Z.of_nat (length l) + i)).
Proof.
  unfold norm_index. intros H. repeat case_match; simplify_eq; try lia; done.
Qed.

Lemma strptime_raises v e : strptime v = Raise e -> e = ValueError.
Proof.
  unfold strptime, make_datetime. repeat case_match; congruence.
Qed.

Lemma validate_raises c v e :
  validate c v = Raise e -> e = ValueError \/ exists msg, e = IncorrectInput msg.
Proof.
  destruct c; simpl; try done.
  - intros H. pose proof (PhoneField_validate_outcomes v) as H'.
    rewrite H in H'. eauto.
  - unfold EmailField_validate. case_match; [done|]. intros [= <-]. eauto.
  - unfold BirthdayField_validate, mbind, result_bind.
    destruct (strptime v) eqn:E; [done|].
    intros [= <-]. left. by eapply strptime_raises.
Qed.

(** C7.  [strptime] raises [ValueError] instead of returning a falsy value,
    so the [IncorrectInput] of [BirthdayField.validate] is never raised:
    creating a Birthday field from ["31.02.2020"] raises [ValueError], and
    at [Contact.update] the decorator turns it into the index message.
    ["01.02.2020"] is accepted and stored as given. *)
Theorem birthday_error_is_not_validation_error :
  new_field BirthdayField "31.02.2020" = Raise ValueError /\
  Contact.update (VInt 0) "31.02.2020" born
    = (Raise (IncorrectInput "Index value is not integer!"), born) /\
  new_field BirthdayField "01.02.2020" = Ok (plain_field BirthdayField "01.02.2020") /\
  forall v msg, new_field BirthdayField v <> Raise (IncorrectInput msg).
Proof.
  split; [done|]. split; [done|]. split; [done|].
  intros v msg. unfold new_field, validate, BirthdayField_validate, mbind, result_bind.
  destruct (strptime v) eqn:E; [done|].
  apply strptime_raises in E as ->. done.
Qed.

Lemma Contact_delete_run idx z c :
  py_int idx = Ok z ->
  Contact.delete idx c =
    if (- 2 ^ 63 <=? z) && (z <? 2 ^ 63) then
      match norm_index (fields c) z with
      | Some k => (Ok tt, set_fields c (delete k (fields c)))
      | None => (Raise IndexError, c)
      end
    else (Raise OverflowError, c).
Proof.
  intros H. unfold Contact.delete, index_error_decorator, mbind, M_bind, lift, get, put.
  rewrite H. unfold list_pop.
  destruct ((- 2 ^ 63 <=? z) && (z <? 2 ^ 63)); [|done].
  by destruct (norm_index (fields c) z).
Qed.

Lemma Contact_update_run idx z v c :
  py_int idx = Ok z ->
  Contact.update idx v c =
    match norm_index (fields c) z with
    | Some k =>
        match fields c !! k with
        | Some f =>
            match validate (cls f) v with
            | Ok f' => (Ok tt, set_fields c (<[k:=f']> (fields c)))
            | Raise ValueError =>
                (Raise (IncorrectInput "Index value is not integer!"), c)
            | Raise e => (Raise e, c)
            end
        | None => (Raise IndexError, c)
        end
    | None => (Raise IndexError, c)
    end.
Proof.
  intros H. unfold Contact.update, index_error_decorator, mbind, M_bind, lift, get, put.
  rewrite H. unfold list_getitem, list_setitem.
  destruct (norm_index (fields c) z) as [k|]; [|done].
  destruct (fields c !! k) as [f|]; [|done].
  destruct (validate (cls f) v) as [f'|[]]; done.
Qed.

(** C10.  For a contact with [n >= 1] fields ([n < 2^63], as for every
    list that fits in memory), an index in [-n..-1], given as an [int] or
    as its text, makes [delete] remove the field at position [n + z],
    leaving the other fields in order and the other attributes as they
    were, and makes [update] revalidate the field at that position, which
    then holds the validated value; [delete(-1)] removes the last field.
    [IndexError] is raised only for indices outside [-n..n-1]: by [update]
    for all of them, by [delete] for those that fit a machine integer, the
    others ending in the [OverflowError] of [list.pop]. *)
Theorem negative_index_counts_from_end (c : Contact) (idx : pyval) (z : Z) (v : string) :
  let n := Z.of_nat (length (fields c)) in
  py_int idx = Ok z ->
  1 <= n < 2 ^ 63 ->
  (- n <= z <= -1 ->
     Contact.delete idx c
       = (Ok tt, mkContact (delete (Z.to_nat (n + z)) (fields c))
                           (phone c) (birthday c) (mail c) (note c))) /\
  (- n <= z <= -1 ->
     exists f,
       fields c !! Z.to_nat (n + z) = Some f /\
       match validate (cls f) v with
       | Ok f' =>
           (Contact.update idx v c).1 = Ok tt /\
           fields (Contact.update idx v c).2 !! Z.to_nat (n + z) = Some f' /\
           length (fields (Contact.update idx v c).2) = length (fields c)
       | Raise ValueError =>
           Contact.update idx v c
             = (Raise (IncorrectInput "Index value is not integer!"), c)
       | Raise e => Contact.update idx v c = (Raise e, c)
       end) /\
  (forall (l : list DataField) x, z = -1 -> fields c = l ++ [x] ->
     (Contact.delete idx c).1 = Ok tt /\ fields (Contact.delete idx c).2 = l) /\
  ((Contact.delete idx c).1 = Raise IndexError <->
   ~ (- n <= z < n) /\ - 2 ^ 63 <= z < 2 ^ 63) /\
  ((Contact.delete idx c).1 = Raise OverflowError <-> ~ (- 2 ^ 63 <= z < 2 ^ 63)) /\
  ((Contact.update idx v c).1 = Raise IndexError <-> ~ (- n <= z < n)).
Proof.
  intros n Hidx Hn. subst n.
  rewrite (Contact_delete_run idx z c Hidx), (Contact_update_run idx z v c Hidx).
  split; [|split; [|split; [|split; [|split]]]].
  - intros Hz. rewrite norm_index_neg by done.
    destruct (Z.leb_spec (- 2 ^ 63) z); [|lia].
    destruct (Z.ltb_spec z (2 ^ 63)); [|lia]. done.
  - intros Hz. rewrite norm_index_neg by done.
    destruct (lookup_lt_is_Some_2 (fields c)
                (Z.to_nat (Z.of_nat (length (fields c)) + z))) as [f Hf]; [lia|].
    exists f. split; [done|]. rewrite Hf.
    destruct (validate (cls f) v) as [f'|[]]; try done.
    cbn [fst snd set_fields fields]. rewrite length_insert.
    split; [done|]. split; [|done].
    apply list_lookup_insert_eq. by apply lookup_lt_Some in Hf.
  - intros l x -> Hl. rewrite norm_index_neg by lia.
    destruct (Z.leb_spec (- 2 ^ 63) (-1)); [|lia].
    destruct (Z.ltb_spec (-1) (2 ^ 63)); [|lia].
    cbn [andb fst snd set_fields fields]. split; [done|].
    rewrite Hl, length_app. simpl.
    replace (Z.to_nat _) with (length l) by lia.
    by rewrite delete_middle, app_nil_r.
  - destruct (Z.leb_spec (- 2 ^ 63) z), (Z.ltb_spec z (2 ^ 63)); cbn [andb].
    + destruct (norm_index (fields c) z) as [k|] eqn:Hk; cbn [fst].
      * apply norm_index_Some in Hk as (_ & Hk & _). split; [done|]. intros [? _]. lia.
      * apply norm_index_None in Hk. split; [intros _; split; [done|lia]|done].
    + cbn [fst]. split; [done|]. intros [_ ?]. lia.
    + cbn [fst]. split; [done|]. intros [_ ?]. lia.
    + cbn [fst]. split; [done|]. intros [_ ?]. lia.
  - destruct (Z.leb_spec (- 2 ^ 63) z), (Z.ltb_spec z (2 ^ 63)); cbn [andb].
    + destruct (norm_index (fields c) z); cbn [fst]; split; try done; intros ?; lia.
    + cbn [fst]. split; [intros _; lia|done].
    + cbn [fst]. split; [intros _; lia|done].
    + cbn [fst]. split; [intros _; lia|done].
  - rewrite <- norm_index_None.
    destruct (norm_index (fields c) z) as [k|] eqn:Hk; [|done].
    apply norm_index_Some in Hk as (Hk & _).
    destruct (lookup_lt_is_Some_2 (fields c) k Hk) as [f ->].
    destruct (validate (cls f) v) as [f'|e] eqn:E; [done|].
    apply validate_raises in E as [->|[msg ->]]; done.
Qed.

Lemma negative_index_counts_from_end_witness :
  py_int (VStr "-1") = Ok (-1) /\
  Contact.delete (VStr "-1") two_phones = (Ok tt, mkContact [phone_099] "" "" "" "") /\
  (Contact.update (VStr "-1") "(067) 111 22 33" two_phones).1 = Ok tt /\
  (Contact.delete (VInt (-3)) two_phones).1 = Raise IndexError.
Proof.
  destruct (negative_index_counts_from_end two_phones (VStr "-1") (-1) "(067) 111 22 33"
              eq_refl ltac:(simpl; lia)) as (H1 & H2 & _).
  destruct (negative_index_counts_from_end two_phones (VInt (-3)) (-3) ""
              eq_refl ltac:(simpl; lia)) as (_ & _ & _ & H3 & _).
  split; [reflexivity|]. split; [|split].
  - apply H1. simpl. lia.
  - destruct H2 as (f & Hf & H2); [simpl; lia|].
    injection Hf as <-.
    change (validate (cls phone_050) "(067) 111 22 33")
      with (Ok (mkField PhoneField "+380671112233" "38" "067" "1112233")) in H2.
    apply H2.
  - apply H3. simpl. lia.
Defined.

(** ** The invariant of field objects *)

Lemma validate_cls c raw f : validate c raw = Ok f -> cls f = c.
Proof.
  destruct c; simpl.
  - by intros [= <-].
  - intros H. pose proof (PhoneField_validate_outcomes raw) as H'. by rewrite H in H'.
  - unfold EmailField_validate. case_match; [|done]. by intros [= <-].
  - unfold BirthdayField_validate, mbind, result_bind. case_match; [|done].
    simpl. by intros [= <-].
  - by intros [= <-].
Qed.

(** Every field that a constructor or an update builds satisfies the
    invariant. *)
Lemma validate_field_ok c raw f : validate c raw = Ok f -> field_ok f.
Proof.
  intros H. unfold field_ok. rewrite (validate_cls c raw f H).
  destruct c; simpl in *.
  - by injection H as <-.
  - by eapply PhoneField_validate_idem.
  - revert H. unfold EmailField_validate. case_match eqn:E; [|done].
    intros [= <-]. simpl. by rewrite E.
  - revert H. unfold BirthdayField_validate, mbind, result_bind.
    case_match eqn:E; [|done]. simpl. intros [= <-]. simpl. by rewrite E.
  - by injection H as <-.
Qed.

Lemma registry_getitem c :
  getitem REGISTERED_FIELDS (field_description c) = Ok c.
Proof. by destruct c. Qed.

Lemma to_json_field_name f :
  getitem (DataField_to_json f) "field_name" = Ok (field_description (cls f)).
Proof. reflexivity. Qed.

Lemma to_json_value f : getitem (DataField_to_json f) "value" = Ok (value f).
Proof. reflexivity. Qed.

Lemma field_decoder_to_json f :
  field_ok f -> field_decoder (DataField_to_json f) = Ok f.
Proof.
  intros Hf. unfold field_decoder.
  rewrite to_json_field_name, to_json_value. unfold mbind, result_bind.
  rewrite registry_getitem. unfold new_field. by rewrite Hf.
Qed.

Lemma from_json_loop_to_json fs :
  Forall field_ok fs ->
  forall c,
    Contact.from_json_loop (DataField_to_json <$> fs) c
    = (Ok tt, set_fields c (fields c ++ fs)).
Proof.
  induction 1 as [|f fs Hf _ IH]; intros c.
  - simpl. unfold mret, M_ret. rewrite app_nil_r. by destruct c.
  - rewrite fmap_cons. simpl. unfold mbind, M_bind, lift.
    rewrite field_decoder_to_json by done. simpl.
    rewrite IH. simpl. by rewrite <- app_assoc.
Qed.

Lemma from_json_to_json c :
  contact_ok c -> Contact.from_json (Contact.to_json c) Contact_init = (Ok tt, c).
Proof.
  intros [Hc Hfs]. unfold Contact.from_json, Contact.to_json, getitem, mbind, M_bind, lift.
  simpl. destruct (fields c) as [|f fs] eqn:E.
  - simpl. unfold mret, M_ret. by rewrite Hc.
  - rewrite fmap_cons.
    change (DataField_to_json f :: (DataField_to_json <$> fs))
      with (DataField_to_json <$> (f :: fs)).
    rewrite from_json_loop_to_json by done. simpl. by rewrite Hc.
Qed.

(** ** Contacts stay well formed *)

Lemma contact_ok_init : contact_ok Contact_init.
Proof. split; [done|constructor]. Qed.

Lemma contact_ok_set_fields c l :
  contact_ok c -> Forall field_ok l -> contact_ok (set_fields c l).
Proof.
  intros [Hc _] Hl. split; [|done]. rewrite Hc. done.
Qed.

Lemma contact_ok_add f c :
  field_ok f -> contact_ok c -> contact_ok (Contact.add f c).2.
Proof.
  intros Hf Hc. apply contact_ok_set_fields; [done|].
  apply Forall_app. split; [apply Hc|by constructor].
Qed.

Lemma contact_ok_replace idx f c :
  field_ok f -> contact_ok c -> contact_ok (Contact.replace idx f c).2.
Proof.
  intros Hf Hc. unfold Contact.replace, index_error_decorator, list_setitem.
  destruct idx as [i|s]; [|done].
  destruct (norm_index (fields c) i) as [k|]; [|done]. simpl.
  apply contact_ok_set_fields; [done|]. apply Forall_insert; [apply Hc|done].
Qed.

Lemma contact_ok_delete idx c : contact_ok c -> contact_ok (Contact.delete idx c).2.
Proof.
  intros Hc. unfold Contact.delete, index_error_decorator, mbind, M_bind, lift, get, put.
  destruct (py_int idx) as [z|[]]; try done. unfold list_pop.
  destruct ((- 2 ^ 63 <=? z) && (z <? 2 ^ 63)); [|done].
  destruct (norm_index (fields c) z) as [k|]; [|done]. simpl.
  apply contact_ok_set_fields; [done|]. apply Forall_delete, Hc.
Qed.

Lemma contact_ok_update idx v c : contact_ok c -> contact_ok (Contact.update idx v c).2.
Proof.
  intros Hc. unfold Contact.update, index_error_decorator, mbind, M_bind, lift, get, put.
  destruct (py_int idx) as [z|[]]; try done. unfold list_getitem, list_setitem.
  destruct (norm_index (fields c) z) as [k|]; [|done].
  destruct (fields c !! k) as [f|]; [|done].
  destruct (validate (cls f) v) as [f'|[]] eqn:E; try done. simpl.
  apply contact_ok_set_fields; [done|].
  apply Forall_insert; [apply Hc|]. by eapply validate_field_ok.
Qed.

Lemma field_decoder_field_ok fd f : field_decoder fd = Ok f -> field_ok f.
Proof.
  unfold field_decoder, mbind, result_bind, new_field.
  destruct (getitem fd "field_name") as [name|[]]; try done.
  destruct (getitem REGISTERED_FIELDS name) as [c|[]]; try done.
  destruct (getitem fd "value") as [raw|[]]; try done.
  destruct (validate c raw) as [f'|[]] eqn:E; try done.
  intros [= <-]. by eapply validate_field_ok.
Qed.

Lemma contact_ok_from_json_loop l :
  forall c, contact_ok c -> contact_ok (Contact.from_json_loop l c).2.
Proof.
  induction l as [|fd l IH]; intros c Hc; [done|].
  simpl. unfold mbind, M_bind, lift.
  destruct (field_decoder fd) as [f|e] eqn:E; [|done]. simpl.
  apply IH, contact_ok_add; [|done]. by eapply field_decoder_field_ok.
Qed.

Lemma contact_ok_from_json doc c :
  contact_ok c -> contact_ok (Contact.from_json doc c).2.
Proof.
  intros Hc. unfold Contact.from_json, mbind, M_bind, lift.
  destruct (getitem doc "fields") as [[[|fd l]|]|e]; try done.
  by apply contact_ok_from_json_loop.
Qed.

Lemma decode_prefix_ok doc : Forall contact_ok (decode_prefix doc).1.
Proof.
  induction doc as [|[key entry] doc IH]; simpl; [constructor|].
  pose proof (contact_ok_from_json entry Contact_init contact_ok_init) as H.
  destruct (Contact.from_json entry Contact_init) as [[[]|e] c]; [|constructor].
  destruct (decode_prefix doc) as [cs r]. simpl in *. by constructor.
Qed.

(** ** Dicts *)

Section DictFacts.
Context {V : Type}.
Implicit Types (d : dict V) (k : Z) (v : V).

Lemma dict_get_Some_keys d k v : dict_get d k = Some v -> k ∈ dict_keys d.
Proof.
  induction d as [|[k' v'] d IH]; simpl; [done|].
  destruct (Z.eqb_spec k' k) as [->|]; intros H.
  - apply list_elem_of_here.
  - apply list_elem_of_further. by apply IH.
Qed.

Lemma dict_get_None_keys d k : k ∉ dict_keys d -> dict_get d k = None.
Proof.
  induction d as [|[k' v'] d IH]; simpl; [done|].
  intros [? ?]%not_elem_of_cons.
  destruct (Z.eqb_spec k' k); [congruence|]. by apply IH.
Qed.

Lemma dict_set_fresh d k v : k ∉ dict_keys d -> dict_set d k v = d ++ [(k, v)].
Proof.
  induction d as [|[k' v'] d IH]; simpl; [done|].
  intros [? ?]%not_elem_of_cons.
  destruct (Z.eqb_spec k' k); [congruence|]. by rewrite IH.
Qed.

Lemma dict_keys_set_mem d k v :
  dict_mem d k = true -> dict_keys (dict_set d k v) = dict_keys d.
Proof.
  unfold dict_mem. induction d as [|[k' v'] d IH]; simpl; [done|].
  destruct (Z.eqb_spec k' k); [done|]. intros H.
  unfold dict_keys in *. by rewrite fmap_cons, IH.
Qed.

Lemma dict_get_set d k v k' :
  dict_get (dict_set d k v) k' = if k =? k' then Some v else dict_get d k'.
Proof.
  induction d as [|[k0 v0] d IH]; simpl; [done|].
  destruct (Z.eqb_spec k0 k) as [->|]; simpl.
  - by destruct (Z.eqb_spec k k').
  - rewrite IH. destruct (Z.eqb_spec k0 k'), (Z.eqb_spec k k'); congruence.
Qed.

Lemma dict_pop_keys d k d' :
  dict_pop d k = Some d' ->
  (forall x, x ∈ dict_keys d' -> x ∈ dict_keys d) /\
  (NoDup (dict_keys d) -> NoDup (dict_keys d') /\
     forall k' v, dict_get d' k' = Some v -> dict_get d k' = Some v).
Proof.
  revert d'. induction d as [|[k0 v0] d IH]; simpl; [done|]. intros d'.
  destruct (Z.eqb_spec k0 k) as [->|].
  - intros [= ->]. split; [by intros x ?; apply list_elem_of_further|].
    intros [Hk Hd]%NoDup_cons. split; [done|]. intros k' v Hv.
    destruct (Z.eqb_spec k k') as [->|]; [|done].
    by apply dict_get_Some_keys in Hv.
  - destruct (dict_pop d k) as [d0|]; [|done]. simpl. intros [= <-].
    destruct (IH d0 eq_refl) as [Hsub Hnd]. simpl. split.
    + intros x [->|?]%elem_of_cons; [apply list_elem_of_here|].
      apply list_elem_of_further. by apply Hsub.
    + intros [Hk Hd]%NoDup_cons. destruct (Hnd Hd) as [Hd0 Hget]. split.
      * apply NoDup_cons. split; [|done]. intros ?. by apply Hk, Hsub.
      * intros k' v. destruct (Z.eqb_spec k0 k'); [done|]. apply Hget.
Qed.
End DictFacts.

Lemma numbered_cons n c cs : numbered n (c :: cs) = (n, c) :: numbered (n + 1) cs.
Proof.
  unfold numbered. rewrite imap_cons. f_equal; [f_equal; lia|].
  apply imap_ext. intros i c' _. simpl. f_equal. lia.
Qed.

Lemma numbered_keys n cs : dict_keys (numbered n cs) = seqZ n (Z.of_nat (length cs)).
Proof.
  unfold dict_keys. revert n. induction cs as [|c cs IH]; intros n; [done|].
  rewrite numbered_cons, fmap_cons, IH. simpl length.
  rewrite Nat2Z.inj_succ, (seqZ_cons n) by lia.
  by rewrite Z.pred_succ, Z.add_1_r.
Qed.

Lemma numbered_values n cs : (numbered n cs).*2 = cs.
Proof.
  revert n. induction cs as [|c cs IH]; intros n; [done|].
  by rewrite numbered_cons, fmap_cons, IH.
Qed.

Lemma numbered_app n cs1 cs2 :
  numbered n (cs1 ++ cs2)
  = numbered n cs1 ++ numbered (n + Z.of_nat (length cs1)) cs2.
Proof.
  revert n. induction cs1 as [|c cs1 IH]; intros n.
  - simpl. by rewrite Z.add_0_r.
  - cbn [app]. rewrite !numbered_cons, IH. cbn [app length]. do 3 f_equal. lia.
Qed.

(** ** Loading a document *)

Lemma keys_below_fresh b : keys_below b -> last_contact_id b ∉ dict_keys (contacts b).
Proof.
  unfold keys_below. rewrite Forall_forall. intros H Hin. specialize (H _ Hin). lia.
Qed.

Lemma add_run c b :
  keys_below b ->
  AddressBook.add c b =
    (Ok (last_contact_id b),
     mkBook (contacts b ++ [(last_contact_id b, c)]) (last_contact_id b + 1)
            (last_contacts_id b)).
Proof.
  intros Hb. unfold AddressBook.add. by rewrite dict_set_fresh by by apply keys_below_fresh.
Qed.

Lemma loads_loop_run items :
  forall b,
    keys_below b ->
    AddressBook.loads_loop items b =
      (outcome (decode_prefix items).2,
       mkBook (contacts b ++ numbered (last_contact_id b) (decode_prefix items).1)
              (last_contact_id b + Z.of_nat (length (decode_prefix items).1))
              (last_contacts_id b)).
Proof.
  induction items as [|[key entry] items IH]; intros b Hb; simpl.
  - destruct b. unfold mret, M_ret. simpl. by rewrite app_nil_r, Z.add_0_r.
  - destruct (Contact.from_json entry Contact_init) as [[[]|e] c].
    + unfold mbind, M_bind. rewrite add_run by done.
      rewrite IH.
      * destruct (decode_prefix items) as [cs r]. simpl.
        rewrite numbered_cons, <- app_assoc. simpl. do 2 f_equal. lia.
      * unfold keys_below, dict_keys. simpl. rewrite fmap_app, Forall_app. split.
        -- eapply Forall_impl; [exact Hb|]. simpl. lia.
        -- repeat constructor. simpl. lia.
    + destruct b. unfold raise. simpl. by rewrite app_nil_r, Z.add_0_r.
Qed.

Lemma loads_run doc b :
  AddressBook.loads doc b =
    (outcome (decode_prefix doc).2,
     mkBook (numbered (last_contact_id b) (decode_prefix doc).1)
            (last_contact_id b + Z.of_nat (length (decode_prefix doc).1))
            (Some 0)).
Proof.
  unfold AddressBook.loads, mbind, M_bind. by rewrite loads_loop_run by constructor.
Qed.

Lemma field_decoder_undecodable fd :
  undecodable fd -> field_decoder fd = Raise DECODE_ERROR.
Proof.
  unfold field_decoder, getitem, mbind, result_bind.
  intros [H|[H|(name & H1 & H2)]].
  - by rewrite H.
  - destruct (str_lookup fd "field_name") as [name|]; [|done].
    destruct (str_lookup REGISTERED_FIELDS name); [|done].
    by rewrite H.
  - by rewrite H1, H2.
Qed.

Lemma from_json_loop_good good rest :
  Forall (fun fd => exists f, field_decoder fd = Ok f) good ->
  forall c, exists c',
    Contact.from_json_loop (good ++ rest) c = Contact.from_json_loop rest c'.
Proof.
  induction 1 as [|fd good [f Hf] _ IH]; intros c; [by exists c|].
  simpl. unfold mbind, M_bind, lift. rewrite Hf. simpl. apply IH.
Qed.

Lemma from_json_undecodable entry good bad rest :
  str_lookup entry "fields" = Some (Some (good ++ bad :: rest)) ->
  Forall (fun fd => exists f, field_decoder fd = Ok f) good ->
  undecodable bad ->
  exists c', Contact.from_json entry Contact_init = (Raise DECODE_ERROR, c').
Proof.
  intros Hentry Hgood Hbad.
  unfold Contact.from_json, mbind, M_bind, lift, getitem. rewrite Hentry.
  destruct (from_json_loop_good good (bad :: rest) Hgood Contact_init) as [c' Hc'].
  exists c'.
  replace (match good ++ bad :: rest with
           | [] => mret tt
           | _ :: _ => Contact.from_json_loop (good ++ bad :: rest)
           end) with (Contact.from_json_loop (good ++ bad :: rest))
    by by destruct good.
  rewrite Hc'. simpl. unfold mbind, M_bind, lift.
  by rewrite field_decoder_undecodable.
Qed.

Lemma decode_prefix_app before cs rest :
  Forall2 (fun item c => Contact.from_json item.2 Contact_init = (Ok tt, c)) before cs ->
  decode_prefix (before ++ rest)
  = (cs ++ (decode_prefix rest).1, (decode_prefix rest).2).
Proof.
  induction 1 as [|[key entry] c before cs Hc _ IH]; simpl.
  - by destruct (decode_prefix rest).
  - simpl in Hc. rewrite Hc, IH. done.
Qed.

(** C8 (as amended).  When the entries [before] an entry decode and the
    entry holds, after fields that decode, a field whose [field_name] is
    unregistered or which lacks [field_name] or [value], [loads] raises the
    decode error at that entry; the book then holds exactly the contacts
    decoded before it, and none at all when the failing entry is the
    first. *)
Theorem loads_stops_at_undecodable_field
    (before after : document) (key : string) (entry : contact_doc)
    (good rest : list field_doc) (bad : field_doc)
    (cs : list Contact) (b : AddressBook) :
  Forall2 (fun item c => Contact.from_json item.2 Contact_init = (Ok tt, c)) before cs ->
  str_lookup entry "fields" = Some (Some (good ++ bad :: rest)) ->
  Forall (fun fd => exists f, field_decoder fd = Ok f) good ->
  undecodable bad ->
  exists b',
    AddressBook.loads (before ++ (key, entry) :: after) b = (Raise DECODE_ERROR, b') /\
    (contacts b').*2 = cs /\
    (before = [] -> contacts b' = []).
Proof.
  intros Hbefore Hentry Hgood Hbad.
  destruct (from_json_undecodable entry good bad rest Hentry Hgood Hbad) as [c' Hc'].
  rewrite loads_run, (decode_prefix_app before cs) by done.
  simpl. rewrite Hc'. simpl. rewrite app_nil_r.
  eexists. split; [done|]. simpl. split; [apply numbered_values|].
  intros ->. by inversion Hbefore.
Qed.

Lemma loads_stops_at_undecodable_field_witness :
  let bogus : field_doc := [("field_name", "Bogus"); ("value", "v")] in
  let bob : field_doc := [("value", "Bob"); ("field_name", "Name")] in
  let b := (AddressBook.add born AddressBook_init).2 in
  undecodable bogus /\
  (exists b',
     AddressBook.loads
       [("0", Contact.to_json alice); ("x", [("fields", Some [bob; bogus; bob])]);
        ("1", Contact.to_json two_phones)] b
     = (Raise DECODE_ERROR, b') /\
     (contacts b').*2 = [alice]) /\
  (exists b',
     AddressBook.loads [("x", [("fields", Some [bogus])])] b = (Raise DECODE_ERROR, b') /\
     contacts b' = []).
Proof.
  intros bogus bob b.
  assert (undecodable bogus) as Hbad by (right; right; by exists "Bogus").
  split; [exact Hbad|]. split.
  - destruct (loads_stops_at_undecodable_field
                [("0", Contact.to_json alice)] [("1", Contact.to_json two_phones)]
                "x" [("fields", Some [bob; bogus; bob])]
                [bob] [bob] bogus [alice] b) as (b' & H1 & H2 & _).
    + repeat constructor.
    + reflexivity.
    + repeat constructor. by exists (plain_field NameField "Bob").
    + exact Hbad.
    + by exists b'.
  - destruct (loads_stops_at_undecodable_field
                [] [] "x" [("fields", Some [bogus])]
                [] [] bogus [] b) as (b' & H1 & _ & H3).
    + constructor.
    + reflexivity.
    + constructor.
    + exact Hbad.
    + exists b'. split; [exact H1|]. by apply H3.
Defined.

(** C8 (as stated) fails: a field that does not decode may come after a
    field whose value its class refuses, and [loads] then raises the error
    of that validation, not the decode error. *)
Lemma undecodable_field_after_refused_value :
  ~ (forall (doc : document) (key : string) (entry : contact_doc)
            (field_list : list field_doc) (bad : field_doc) (b : AddressBook),
       (key, entry) ∈ doc ->
       str_lookup entry "fields" = Some (Some field_list) ->
       bad ∈ field_list ->
       undecodable bad ->
       (AddressBook.loads doc b).1 = Raise DECODE_ERROR).
Proof.
  intros H.
  specialize (H [("x", [("fields",
                        Some [[("field_name", "Email"); ("value", "foo")];
                              [("field_name", "Bogus"); ("value", "v")]])])]
                "x"
                [("fields", Some [[("field_name", "Email"); ("value", "foo")];
                                  [("field_name", "Bogus"); ("value", "v")]])]
                [[("field_name", "Email"); ("value", "foo")];
                 [("field_name", "Bogus"); ("value", "v")]]
                [("field_name", "Bogus"); ("value", "v")]
                AddressBook_init).
  assert ((AddressBook.loads
             [("x", [("fields",
                      Some [[("field_name", "Email"); ("value", "foo")];
                            [("field_name", "Bogus"); ("value", "v")]])])]
             AddressBook_init).1
          = Raise (IncorrectInput "foo is not an email.")) as E by reflexivity.
  rewrite E in H. unfold DECODE_ERROR in H.
  assert (Raise (A:=unit) (IncorrectInput "foo is not an email.")
          = Raise (FieldDecodeError
                     "Wrong message format. 'field_name' and 'value' required")) as [=].
  apply H.
  - apply list_elem_of_here.
  - reflexivity.
  - apply list_elem_of_further, list_elem_of_here.
  - right; right. by exists "Bogus".
Qed.

(** ** The invariant of the address book *)

Lemma book_inv_init : book_inv AddressBook_init.
Proof. split; constructor. Qed.

Lemma book_inv_add c b : book_inv b -> book_inv (AddressBook.add c b).2.
Proof.
  intros [Hb Hnd]. rewrite add_run by done. simpl. split.
  - unfold keys_below, dict_keys. simpl. rewrite fmap_app, Forall_app. split.
    + eapply Forall_impl; [exact Hb|]. simpl. lia.
    + repeat constructor. simpl. lia.
  - unfold dict_keys. simpl. rewrite fmap_app. apply NoDup_app. split; [done|]. split.
    + intros k Hk [->|?%elem_of_nil]%elem_of_cons; [|done].
      by apply keys_below_fresh in Hk.
    + apply NoDup_singleton.
Qed.

Lemma book_inv_replace k c b : book_inv b -> book_inv (AddressBook.replace k c b).2.
Proof.
  intros [Hb Hnd]. unfold AddressBook.replace. destruct k as [k|s]; [|done].
  destruct (dict_mem (contacts b) k) eqn:Hk; [|done]. simpl.
  unfold book_inv, keys_below. simpl. by rewrite dict_keys_set_mem.
Qed.

Lemma delete_run k b :
  (AddressBook.delete k b).2 = b \/
  exists key d,
    dict_pop (contacts b) key = Some d /\
    (AddressBook.delete k b).2 = mkBook d (last_contact_id b) (last_contacts_id b).
Proof.
  unfold AddressBook.delete, index_error_decorator, mbind, M_bind, lift, get, put, raise.
  destruct (py_int k) as [key|[]]; simpl; eauto.
  destruct (dict_pop (contacts b) key) as [d|] eqn:Hd; simpl; eauto.
Qed.

Lemma book_inv_delete k b : book_inv b -> book_inv (AddressBook.delete k b).2.
Proof.
  intros [Hb Hnd]. destruct (delete_run k b) as [->|(key & d & Hd & ->)]; [done|].
  apply dict_pop_keys in Hd as [Hsub Hd]. destruct (Hd Hnd) as [Hnd' _].
  split; [|done]. unfold keys_below in *. simpl.
  rewrite Forall_forall in *. eauto.
Qed.

Lemma book_inv_loads doc b : book_inv (AddressBook.loads doc b).2.
Proof.
  rewrite loads_run. simpl. unfold book_inv, keys_below. simpl.
  rewrite numbered_keys. split.
  - apply Forall_forall. intros k Hk%elem_of_seqZ. lia.
  - apply NoDup_seqZ.
Qed.

Lemma book_inv_run_op o b : book_inv b -> book_inv (run_op o b).
Proof.
  destruct o; simpl.
  - apply book_inv_add.
  - apply book_inv_replace.
  - apply book_inv_delete.
  - intros _. split; constructor.
  - intros _. apply book_inv_loads.
Qed.

Lemma book_inv_run_ops ops : forall b, book_inv b -> book_inv (run_ops ops b).
Proof.
  induction ops as [|o ops IH]; intros b Hb; [done|].
  simpl. by apply IH, book_inv_run_op.
Qed.

Lemma keeps_binding_run_op o k b :
  book_inv b -> rebinds o <> Some k -> keeps_binding k b (run_op o b).
Proof.
  intros [Hb Hnd] Ho c c' Hc Hc'. destruct o as [c0|id c0|id| |doc]; simpl in *.
  - rewrite dict_get_set in Hc'.
    destruct (Z.eqb_spec (last_contact_id b) k) as [<-|]; [|congruence].
    apply dict_get_Some_keys in Hc. by apply keys_below_fresh in Hc.
  - unfold AddressBook.replace in Hc'. destruct id as [i|s]; [|simpl in *; congruence].
    destruct (dict_mem (contacts b) i); [|simpl in *; congruence]. simpl in Hc'.
    rewrite dict_get_set in Hc'. destruct (Z.eqb_spec i k); congruence.
  - destruct (delete_run id b) as [Heq|(key & d & Hd & Heq)]; rewrite Heq in Hc'.
    + congruence.
    + apply dict_pop_keys in Hd as [_ Hd]. destruct (Hd Hnd) as [_ Hget].
      simpl in Hc'. apply Hget in Hc'. congruence.
  - done.
  - rewrite loads_run in Hc'. simpl in Hc'.
    apply dict_get_Some_keys in Hc, Hc'. rewrite numbered_keys in Hc'.
    apply elem_of_seqZ in Hc'. unfold keys_below in Hb.
    rewrite Forall_forall in Hb. specialize (Hb _ Hc). lia.
Qed.

(** C9 (as amended).  After any sequence of [add], [replace], [delete],
    [clear] and [loads], every key of the map is below the counter; and a
    further [add], [replace] or [delete] leaves every id that stays in the
    map with the contact it had, except the one id that a [replace] is
    asked to rebind.  No id remains in the map through [clear] and
    [loads]: they begin by emptying it, and do the same on the book whose
    map is already empty. *)
Theorem ids_below_counter_and_stable (ops : list book_op) (o : book_op) (k : Z) :
  let b := run_ops ops AddressBook_init in
  keys_below b /\
  (is_edit o = true -> rebinds o <> Some k -> keeps_binding k b (run_op o b)) /\
  (is_edit o = false ->
   run_op o b = run_op o (mkBook [] (last_contact_id b) (last_contacts_id b))).
Proof.
  intros b. assert (book_inv b) as Hb by apply book_inv_run_ops, book_inv_init.
  split; [apply Hb|]. split.
  - intros _. by apply keeps_binding_run_op.
  - by destruct o.
Qed.

Lemma ids_below_counter_and_stable_witness :
  let b := run_ops [OpAdd alice; OpAdd two_phones; OpAdd born] AddressBook_init in
  let o := OpDelete (VStr "0") in
  is_edit o = true /\
  rebinds o <> Some 1 /\
  keys_below b /\
  dict_get (contacts b) 1 = Some two_phones /\
  dict_get (contacts (run_op o b)) 1 = Some two_phones /\
  keeps_binding 1 b (run_op o b).
Proof.
  intros b o.
  assert (rebinds o <> Some 1) as H by done.
  split; [reflexivity|]. split; [exact H|].
  destruct (ids_below_counter_and_stable
              [OpAdd alice; OpAdd two_phones; OpAdd born] o 1) as (H1 & H2 & _).
  split; [exact H1|]. split; [reflexivity|]. split; [reflexivity|].
  exact (H2 eq_refl H).
Defined.

(** C9 (as stated) fails: [replace] gives an id that stays in the map a
    different contact. *)
Lemma replace_rebinds_id :
  ~ (forall (ops : list book_op) (o : book_op) (k : Z),
       let b := run_ops ops AddressBook_init in
       keys_below b /\ keeps_binding k b (run_op o b)).
Proof.
  intros H.
  destruct (H [OpAdd alice] (OpReplace (VInt 0) two_phones) 0) as [_ Hk].
  specialize (Hk alice two_phones eq_refl eq_refl). discriminate Hk.
Qed.

(** ** Dumping and loading again *)

Lemma decode_prefix_dumps (d : dict Contact) :
  Forall (fun kc => contact_ok kc.2) d ->
  decode_prefix ((fun '(rec_id, rec) => (str_of_int rec_id, Contact.to_json rec)) <$> d)
  = (d.*2, None).
Proof.
  induction 1 as [|[k c] d Hc _ IH]; [done|].
  rewrite fmap_cons. simpl in *. by rewrite from_json_to_json, IH.
Qed.

(** Loading what was just dumped gives back the same contacts, in the same
    order, numbered from where the counter stood. *)
Lemma loads_dumps b :
  book_ok b ->
  AddressBook.loads (AddressBook.dumps b) b =
    (Ok tt,
     mkBook (numbered (last_contact_id b) (contacts b).*2)
            (last_contact_id b + Z.of_nat (length (contacts b)))
            (Some 0)).
Proof.
  intros Hb. rewrite loads_run. unfold AddressBook.dumps.
  rewrite decode_prefix_dumps by done. simpl. by rewrite length_fmap.
Qed.

Section DictForall.
Context {V : Type} (P : Z * V -> Prop).

Lemma Forall_dict_set d k v : Forall P d -> P (k, v) -> Forall P (dict_set d k v).
Proof.
  intros Hd Hv. induction Hd as [|[k' v'] d Hx Hd IH]; simpl.
  - by repeat constructor.
  - destruct (k' =? k) eqn:E.
    + constructor; [|done]. apply Z.eqb_eq in E as ->. done.
    + by constructor.
Qed.

Lemma Forall_dict_pop d k d' : dict_pop d k = Some d' -> Forall P d -> Forall P d'.
Proof.
  intros Hpop Hd. revert d' Hpop.
  induction Hd as [|[k' v'] d Hx Hd IH]; simpl; [done|]. intros d'.
  destruct (k' =? k); [by intros [= <-]|].
  destruct (dict_pop d k) as [d0|]; [|done]. simpl. intros [= <-].
  constructor; [done|]. by apply IH.
Qed.
End DictForall.

Lemma Forall_numbered (P : Contact -> Prop) n cs :
  Forall P cs -> Forall (fun kc => P kc.2) (numbered n cs).
Proof.
  intros H. revert n. induction H as [|c cs Hc _ IH]; intros n; [constructor|].
  rewrite numbered_cons. by constructor.
Qed.

Lemma book_ok_run_op o b : op_ok o -> book_ok b -> book_ok (run_op o b).
Proof.
  unfold book_ok. intros Ho Hb. destruct o as [c|id c|id| |doc]; simpl in *.
  - by apply Forall_dict_set.
  - unfold AddressBook.replace. destruct id as [k|s]; [|done].
    destruct (dict_mem (contacts b) k); [|done]. simpl. by apply Forall_dict_set.
  - destruct (delete_run id b) as [->|(key & d & Hd & ->)]; [done|].
    simpl. by eapply Forall_dict_pop.
  - constructor.
  - rewrite loads_run. simpl. apply Forall_numbered, decode_prefix_ok.
Qed.

Lemma book_ok_run_ops ops :
  Forall op_ok ops -> forall b, book_ok b -> book_ok (run_ops ops b).
Proof.
  induction 1 as [|o ops Ho _ IH]; intros b Hb; [done|].
  simpl. by apply IH, book_ok_run_op.
Qed.

(** The round trip in every book the operations can build: the contacts and
    their fields come back as they were, under ids that continue from the
    counter. *)
Lemma loads_dumps_reachable ops :
  Forall op_ok ops ->
  let b := run_ops ops AddressBook_init in
  AddressBook.loads (AddressBook.dumps b) b =
    (Ok tt,
     mkBook (numbered (last_contact_id b) (contacts b).*2)
            (last_contact_id b + Z.of_nat (length (contacts b)))
            (Some 0)).
Proof.
  intros Hops b. apply loads_dumps. apply book_ok_run_ops; [done|constructor].
Qed.

(** C1.  [loads] assigns [last_contacts_id], not [last_contact_id]: the
    counter is not reset.  A book that holds one contact under id 0 comes
    back from [loads(dumps())] with the same contact and fields, but under
    id 1, the counter standing at 2. *)
Theorem loads_dumps_does_not_renumber :
  let b := (AddressBook.add alice AddressBook_init).2 in
  contacts b = [(0, alice)] /\
  AddressBook.loads (AddressBook.dumps b) b
    = (Ok tt, mkBook [(1, alice)] 2 (Some 0)).
Proof. split; reflexivity. Qed.

(** * Further properties *)

(** ** What the phone validation accepts *)

Lemma search_from_matches r pos s m :
  search_from r pos s = Some m ->
  exists pos0 s0 s',
    (pos0 = pos -> s0 = s) /\ (pos <= pos0)%nat /\
    matches r pos0 s0 [] (m_end m) s' (m_groups m).
Proof.
  revert pos. induction s as [|c s IH]; intros pos; simpl.
  - destruct (rmatch r pos "" [] _) eqn:E; [|done].
    intros [= ->]. apply rmatch_sound in E as (? & s' & ? & H & [= <-]).
    exists pos, "", s'. eauto.
  - destruct (rmatch r pos (String c s) [] _) eqn:E.
    + intros [= ->]. apply rmatch_sound in E as (? & s' & ? & H & [= <-]).
      exists pos, (String c s), s'. eauto.
    + intros H. apply IH in H as (pos0 & s0 & s' & _ & Hle & H).
      exists pos0, s0, s'. split; [lia|]. split; [lia|done].
Qed.

Lemma at_eol_inv s : at_eol s = true -> s = "" \/ s = String "010" "".
Proof.
  destruct s as [|c [|c' s]]; simpl; [by left| |done].
  intros H. apply Ascii.eqb_eq in H as ->. by right.
Qed.

Lemma append_empty_r s : s +:+ "" = s.
Proof.
  induction s as [|c s IH]; [done|].
  change (String c (s +:+ "") = String c s). by rewrite IH.
Qed.

Lemma phone_input_intro pre s' cc op num :
  at_eol s' = true ->
  phone_pattern pre cc op num ->
  phone_input (pre +:+ s') cc op num.
Proof.
  intros Hs Hp. exists pre, s'. split; [done|]. split; [|done].
  by apply at_eol_inv.
Qed.

Local Opaque is_digit.

Lemma PhoneField_validate_input x cc op num :
  phone_input (remove_spaces x) cc op num ->
  PhoneField_validate x = Ok (canonical_phone cc op num).
Proof.
  intros (body & nl & Hx & Hnl & Hp).
  destruct Hnl as [-> | ->].
  { apply PhoneField_validate_pattern. by rewrite Hx, append_empty_r. }
  destruct Hp as (plus & lp & rp & Hplus & Hlp & Hrp & Hcc & (d & -> & Hd) & Hnum & ->).
  unfold PhoneField_validate, canonical_phone. rewrite Hx. clear x Hx.
  assert (cc = None \/ exists a b, cc = Some (String a (String b "")) /\
            is_digit a = true /\ is_digit b = true) as Hcc'.
  { destruct cc as [c|]; [right|by left].
    specialize (Hcc c eq_refl). digits_inv. eauto 6. }
  clear Hcc. digits_inv.
  unfold re_search, PHONE_REGEX.
  destruct Hcc' as [->|(a & b & -> & Ha & Hb)],
    Hplus as [-> | ->], Hlp as [-> | ->], Hrp as [-> | ->].
  all: cbv [String.append default fmt_group].
  all: run_matcher; reflexivity.
Qed.

Ltac digits_goal :=
  apply digits_intro; [reflexivity|]; cbn;
  repeat match goal with
         | H : is_digit ?c = true |- context [is_digit ?c] => rewrite H
         end; reflexivity.

Ltac pattern_goal plus lp rp :=
  exists plus, lp, rp;
  split; [first [by left | by right]|];
  split; [first [by left | by right]|];
  split; [first [by left | by right]|];
  split; [intros ? [=]; subst; digits_goal|];
  split; [eexists; split; [reflexivity|]; digits_goal|];
  split; [digits_goal|];
  reflexivity.

Ltac pattern_goals :=
  first [ pattern_goal "" "" "" | pattern_goal "" "" ")"
        | pattern_goal "" "(" "" | pattern_goal "" "(" ")"
        | pattern_goal "+" "" "" | pattern_goal "+" "" ")"
        | pattern_goal "+" "(" "" | pattern_goal "+" "(" ")" ].

Lemma PhoneField_validate_Ok_inv x f :
  PhoneField_validate x = Ok f ->
  exists cc op num,
    f = canonical_phone cc op num /\ phone_input (remove_spaces x) cc op num.
Proof.
  unfold PhoneField_validate.
  destruct (re_search PHONE_REGEX (remove_spaces x)) as [[e caps]|] eqn:E; [|done].
  apply search_from_matches in E as (pos0 & s0 & s' & Hs0 & _ & H). simpl in *.
  cbv [PHONE_REGEX rep digit] in H. inv_matches; simpl.
  all: rewrite substring_0_0; intros [= <-].
  all: rewrite <- (Hs0 eq_refl); clear Hs0.
  all: first [ exists None; do 2 eexists; split; [reflexivity|]
             | eexists (Some _); do 2 eexists; split; [reflexivity|] ].
  all: match goal with
       | Hs : at_eol ?t = true |- phone_input ?S _ _ _ =>
           match eval pattern t in S with
           | ?G _ =>
               let pre := eval cbv beta in (G "") in
               change S with (pre +:+ t);
               apply (phone_input_intro pre t _ _ _ Hs)
           end
       end.
  all: pattern_goals.
Qed.

Local Transparent is_digit.

(** X1.  Among the inputs whose characters are all code points below 256,
    [PhoneField.validate] accepts exactly those that, once their spaces are
    removed, read as the phone pattern followed by nothing or by one final
    newline, and builds the canonical field from the parts; every other
    such input gets the "No phone number found" error. *)
Theorem PhoneField_accepts_exactly x :
  latin1 x ->
  (forall f,
     PhoneField_validate x = Ok f <->
     exists cc op num,
       f = canonical_phone cc op num /\ phone_input (remove_spaces x) cc op num) /\
  ((forall cc op num, ~ phone_input (remove_spaces x) cc op num) <->
   PhoneField_validate x
     = Raise (IncorrectInput ("No phone number found in " +:+ remove_spaces x))).
Proof.
  intros _. split.
  - intros f. split; [apply PhoneField_validate_Ok_inv|].
    intros (cc & op & num & -> & H). by apply PhoneField_validate_input.
  - split.
    + intros Hno. pose proof (PhoneField_validate_outcomes x) as Ho.
      destruct (PhoneField_validate x) as [f|e] eqn:E; [|by rewrite Ho].
      apply PhoneField_validate_Ok_inv in E as (cc & op & num & _ & H).
      by destruct (Hno cc op num).
    + intros E cc op num H. apply PhoneField_validate_input in H. congruence.
Qed.

Lemma PhoneField_accepts_exactly_witness :
  latin1 "+38 (099) 123 45 67" /\
  (exists cc op num,
     phone_099 = canonical_phone cc op num /\
     phone_input (remove_spaces "+38 (099) 123 45 67") cc op num) /\
  PhoneField_validate "+38 099 123 45 6"
    = Raise (IncorrectInput "No phone number found in +38099123456").
Proof.
  assert (latin1 "+38 (099) 123 45 67") as H1 by (repeat constructor).
  assert (latin1 "+38 099 123 45 6") as H2 by (repeat constructor).
  split; [exact H1|]. split.
  - apply (proj1 (PhoneField_accepts_exactly "+38 (099) 123 45 67" H1)). reflexivity.
  - destruct (PhoneField_accepts_exactly "+38 099 123 45 6" H2) as [Hok Herr].
    apply Herr. intros cc op num Hin.
    assert (PhoneField_validate "+38 099 123 45 6" = Ok (canonical_phone cc op num)) as E.
    { apply Hok. by exists cc, op, num. }
    vm_compute in E. discriminate E.
Defined.

(** ** Completeness of the matcher, and e-mail addresses *)

Section MatcherComplete.
Context {A : Type}.

Lemma plus_loop_complete p pos s pos' s' (k : nat -> string -> option A) :
  plus_run p pos s pos' s' ->
  is_Some (k pos' s') ->
  is_Some (plus_loop p pos s k).
Proof.
  induction 1 as [c pos s Hc|c pos s pos' s' Hc _ IH]; intros Hk; simpl; rewrite Hc.
  - destruct (plus_loop p (S pos) s k); eauto.
  - destruct (IH Hk) as [x ->]. eauto.
Qed.

(** Whenever some way through [r] leads to a continuation that succeeds,
    the matcher succeeds (with the way of highest priority). *)
Lemma rmatch_complete r pos s caps pos' s' caps' :
  matches r pos s caps pos' s' caps' ->
  forall k : nat -> string -> captures -> option A,
    is_Some (k pos' s' caps') ->
    is_Some (rmatch r pos s caps k).
Proof.
  induction 1; intros k Hk; simpl; try done.
  - by rewrite Ascii.eqb_refl.
  - by rewrite H.
  - by rewrite H.
  - apply IHmatches1. by apply IHmatches2.
  - destruct (IHmatches k Hk) as [x ->]. eauto.
  - destruct (rmatch r1 pos s caps k); eauto.
  - destruct (IHmatches k Hk) as [x ->]. eauto.
  - destruct (rmatch r pos s caps k); eauto.
  - by eapply plus_loop_complete.
  - by apply IHmatches.
Qed.
End MatcherComplete.

Lemma plus_run_inv p pos s pos' s' :
  plus_run p pos s pos' s' ->
  exists u, u <> "" /\ str_all p u = true /\ s = u +:+ s'.
Proof.
  induction 1 as [c pos s Hc|c pos s pos' s' Hc _ (u & _ & Hu & ->)].
  - exists (String c ""). simpl. by rewrite Hc.
  - exists (String c u). simpl. by rewrite Hc, Hu.
Qed.

Lemma plus_run_intro p u :
  u <> "" -> str_all p u = true ->
  forall pos s', plus_run p pos (u +:+ s') (pos + String.length u) s'.
Proof.
  induction u as [|c u IH]; [done|]. intros _ Hu pos s'.
  simpl in Hu. apply andb_prop in Hu as [Hc Hu].
  destruct u as [|c' u].
  - simpl. replace (pos + 1)%nat with (S pos) by lia. by apply plus_run_one.
  - change (String c (String c' u) +:+ s') with (String c (String c' u +:+ s')).
    apply plus_run_more; [done|].
    replace (pos + String.length (String c (String c' u)))%nat
      with (S pos + String.length (String c' u))%nat by (simpl; lia).
    by apply IH.
Qed.

Lemma email_shape_matches s :
  email_shape s -> exists pos' s' caps', matches EMAIL_REGEX 0 s [] pos' s' caps'.
Proof.
  intros (u & v & w & rest & -> & [Hu1 Hu2] & [Hv1 Hv2] & [Hw1 Hw2]).
  do 3 eexists. unfold EMAIL_REGEX.
  eapply matches_Cat; [eapply matches_Cat; [eapply matches_Cat; [eapply matches_Cat|]|]|].
  - apply matches_Plus. by apply plus_run_intro.
  - apply matches_Chr.
  - apply matches_Plus. by apply plus_run_intro.
  - apply matches_Chr.
  - apply matches_Plus. by apply plus_run_intro.
Qed.

Lemma matches_email_shape pos s caps pos' s' caps' :
  matches EMAIL_REGEX pos s caps pos' s' caps' -> email_shape s.
Proof.
  unfold EMAIL_REGEX. intros H.
  repeat match goal with
         | H : matches (Cat _ _) _ _ _ _ _ _ |- _ => inversion H; subst; clear H
         | H : matches (Chr _) _ _ _ _ _ _ |- _ => inversion H; subst; clear H
         | H : matches (Plus _) _ _ _ _ _ _ |- _ => inversion H; subst; clear H
         end.
  repeat match goal with
         | H : plus_run _ _ _ _ _ |- _ =>
             apply plus_run_inv in H as (? & ? & ? & ?)
         end.
  subst. by eexists _, _, _, _.
Qed.

(** X2.  [EmailField.validate] accepts exactly the strings that start
    with [u@v.w], the three parts non-empty and free of ["@"], whatever
    follows (the pattern is matched at the start only), and stores them as
    given; every other string gets the "is not an email." error. *)
Theorem EmailField_accepts_exactly s :
  (email_shape s <-> EmailField_validate s = Ok (plain_field EmailField s)) /\
  (~ email_shape s <->
   EmailField_validate s = Raise (IncorrectInput (s +:+ " is not an email."))).
Proof.
  assert (email_shape s <-> is_Some (re_match EMAIL_REGEX s)) as Hiff.
  { split.
    - intros (pos' & s' & caps' & H)%email_shape_matches.
      eapply rmatch_complete; [exact H|]. eauto.
    - intros [m Hm]. unfold re_match in Hm.
      apply rmatch_sound in Hm as (pos' & s' & caps' & H & _).
      by eapply matches_email_shape. }
  unfold EmailField_validate.
  destruct (re_match EMAIL_REGEX s) as [m|].
  - split; split; try done.
    + intros _. apply Hiff. eauto.
    + intros Hn. destruct Hn. apply Hiff. eauto.
  - split; split; try done.
    + intros [? [=]]%Hiff.
    + intros _ [? [=]]%Hiff.
Qed.

(** ** Substrings and searches *)

Lemma prefix_spec a b : String.prefix a b = true <-> exists post, b = a +:+ post.
Proof.
  revert b. induction a as [|c a IH]; intros b.
  - split; [|by destruct b]. intros _. by exists b.
  - destruct b as [|c' b]; simpl.
    + split; [done|]. by intros [post [=]].
    + destruct (ascii_dec c c') as [->|Hne].
      * rewrite IH. split.
        -- intros [post ->]. by exists post.
        -- intros [post [= ->]]. by exists post.
      * split; [done|]. intros [post [= ? _]]. done.
Qed.

Lemma str_contains_spec needle hay :
  str_contains needle hay = true <-> substring_of needle hay.
Proof.
  unfold substring_of. induction hay as [|c hay IH].
  - cbn [str_contains]. rewrite orb_false_r, prefix_spec. split.
    + intros [post ->]. by exists "", post.
    + intros (pre & post & H). destruct pre as [|c pre]; [|done]. by exists post.
  - cbn [str_contains]. rewrite orb_true_iff, prefix_spec, IH. split.
    + intros [[post ->]|(pre & post & ->)].
      * by exists "", post.
      * by exists (String c pre), post.
    + intros (pre & post & H). destruct pre as [|c' pre].
      * left. by exists post.
      * right. injection H as -> ->. by exists pre, post.
Qed.

Lemma contains_substring c item :
  Contact.contains c item = true <->
  exists f, f ∈ fields c /\ substring_of item (value f).
Proof.
  unfold Contact.contains. rewrite existsb_exists. split.
  - intros (f & Hf%list_elem_of_In & H). exists f. split; [done|].
    by apply str_contains_spec.
  - intros (f & Hf%list_elem_of_In & H). exists f. split; [done|].
    by apply str_contains_spec.
Qed.

(** The loop of the searches, on a map without repeated keys, keeps the
    items that pass the test, where they were. *)
Lemma search_loop_filter test (items : list (Z * Contact)) :
  NoDup (dict_keys items) ->
  AddressBook.search_loop test items = filter (fun kc => test kc.2 = true) items.
Proof.
  unfold AddressBook.search_loop.
  assert (forall acc : list (Z * Contact),
            NoDup (dict_keys (acc ++ items)) ->
            foldl (fun result '(contact_id, contact) =>
                     if test contact then dict_set result contact_id contact else result)
                  acc items
            = acc ++ filter (fun kc => test kc.2 = true) items) as H.
  { induction items as [|[k c] items IH]; intros acc Hnd.
    - by rewrite app_nil_r.
    - cbn [foldl]. rewrite filter_cons. cbn [snd].
      assert (NoDup (dict_keys acc ++ k :: dict_keys items)) as Hnd'.
      { unfold dict_keys in *. by rewrite fmap_app, fmap_cons in Hnd. }
      apply NoDup_app in Hnd' as (H1 & H2 & [Hk H3]%NoDup_cons).
      destruct (test c) eqn:E.
      + rewrite dict_set_fresh.
        * rewrite IH.
          -- destruct (decide _); [|done]. by rewrite <- app_assoc.
          -- by rewrite <- app_assoc.
        * intros Hin. apply (H2 k Hin). apply list_elem_of_here.
      + destruct (decide _); [done|]. apply IH.
        unfold dict_keys. rewrite fmap_app.
        apply NoDup_app. split; [done|]. split; [|done].
        intros x Hx Hx'. apply (H2 x Hx). by apply list_elem_of_further. }
  intros Hnd. by rewrite (H [] Hnd).
Qed.

Lemma dict_get_filter (P : Z * Contact -> bool) (d : list (Z * Contact)) k c :
  NoDup (dict_keys d) ->
  dict_get (filter (fun kc => P kc = true) d) k = Some c <->
  dict_get d k = Some c /\ P (k, c) = true.
Proof.
  induction d as [|[k' c'] d IH]; intros Hnd; simpl.
  - by split; [|intros []].
  - apply NoDup_cons in Hnd as [Hk' Hnd]. rewrite filter_cons.
    destruct (Z.eqb_spec k' k) as [->|Hne].
    + destruct (decide (P (k, c') = true)) as [HP|HP]; simpl.
      * rewrite Z.eqb_refl. split; [intros [= ->]|intros [[= ->] _]]; done.
      * rewrite IH by done. split.
        -- intros [H%dict_get_Some_keys _]. done.
        -- intros [[= ->] ?]. done.
    + destruct (decide (P (k', c') = true)) as [HP|HP]; simpl.
      * destruct (Z.eqb_spec k' k); [done|]. by apply IH.
      * by apply IH.
Qed.

(** X4.  In every book the operations can build, [str_search] returns,
    under their own ids, exactly the contacts one of whose field values
    contains the search string. *)
Theorem str_search_finds_exactly (ops : list book_op) (s : string) (k : Z) (c : Contact) :
  let b := run_ops ops AddressBook_init in
  dict_get (AddressBook.str_search b s) k = Some c <->
  dict_get (contacts b) k = Some c /\
  exists f, f ∈ fields c /\ substring_of s (value f).
Proof.
  intros b. destruct (book_inv_run_ops ops _ book_inv_init) as [_ Hnd]. fold b in Hnd.
  unfold AddressBook.str_search. rewrite search_loop_filter by done.
  rewrite (dict_get_filter (fun kc => Contact.contains kc.2 s)) by done.
  simpl. by rewrite contains_substring.
Qed.

(** ** Reading the book after an edit *)

Lemma dict_pop_get {V} (d d' : list (Z * V)) k :
  NoDup (dict_keys d) ->
  dict_pop d k = Some d' ->
  forall j, dict_get d' j = if j =? k then None else dict_get d j.
Proof.
  revert d'. induction d as [|[k0 v0] d IH]; simpl; [done|]. intros d' Hnd Hpop j.
  apply NoDup_cons in Hnd as [Hk0 Hnd].
  destruct (Z.eqb_spec k0 k) as [->|Hne].
  - injection Hpop as <-. destruct (Z.eqb_spec j k) as [->|Hj].
    + by apply dict_get_None_keys.
    + destruct (Z.eqb_spec k j); [congruence|done].
  - destruct (dict_pop d k) as [d0|] eqn:E; [|done]. injection Hpop as <-.
    simpl. destruct (Z.eqb_spec k0 j) as [->|Hj].
    + destruct (Z.eqb_spec j k); [congruence|done].
    + by apply IH.
Qed.

Lemma dict_pop_None {V} (d : list (Z * V)) k :
  dict_pop d k = None <-> dict_get d k = None.
Proof.
  induction d as [|[k0 v0] d IH]; simpl; [done|].
  destruct (Z.eqb_spec k0 k); [done|].
  rewrite <- IH. by destruct (dict_pop d k).
Qed.

Lemma reachable_inv ops : book_inv (run_ops ops AddressBook_init).
Proof. apply book_inv_run_ops, book_inv_init. Qed.

(** X5.  In every book the operations can build, [add] returns the
    counter, which was not an id of the map; the new id then reads back the
    contact, every other id reads as before, and the map has one contact
    more. *)
Theorem add_then_get (ops : list book_op) (c : Contact) :
  let b := run_ops ops AddressBook_init in
  let r := AddressBook.add c b in
  r.1 = Ok (last_contact_id b) /\
  AddressBook.__getitem__ b (VInt (last_contact_id b)) = Raise KeyError /\
  AddressBook.__getitem__ r.2 (VInt (last_contact_id b)) = Ok c /\
  (forall k, k <> last_contact_id b ->
     AddressBook.__getitem__ r.2 (VInt k) = AddressBook.__getitem__ b (VInt k)) /\
  length (contacts r.2) = S (length (contacts b)).
Proof.
  intros b r. destruct (reachable_inv ops) as [Hb Hnd]. fold b in Hb, Hnd.
  subst r. rewrite add_run by done. simpl.
  split; [done|]. split; [|split; [|split]].
  - by rewrite dict_get_None_keys by by apply keys_below_fresh.
  - rewrite <- dict_set_fresh by by apply keys_below_fresh.
    by rewrite dict_get_set, Z.eqb_refl.
  - intros k Hk. rewrite <- dict_set_fresh by by apply keys_below_fresh.
    rewrite dict_get_set. by destruct (Z.eqb_spec (last_contact_id b) k).
  - rewrite length_app. simpl. lia.
Qed.

(** X6.  [replace] on an id that is not in the map raises [KeyError]
    and changes nothing; on an id of the map it makes that id read back the
    new contact and leaves every other id, the order of the keys and the
    counter as they were. *)
Theorem replace_then_get (ops : list book_op) (id : pyval) (c : Contact) :
  let b := run_ops ops AddressBook_init in
  let r := AddressBook.replace id c b in
  match AddressBook.__getitem__ b id with
  | Raise _ => r = (Raise KeyError, b)
  | Ok _ =>
      r.1 = Ok tt /\
      AddressBook.__getitem__ r.2 id = Ok c /\
      (forall k, id <> VInt k ->
         AddressBook.__getitem__ r.2 (VInt k) = AddressBook.__getitem__ b (VInt k)) /\
      dict_keys (contacts r.2) = dict_keys (contacts b) /\
      last_contact_id r.2 = last_contact_id b
  end.
Proof.
  intros b r. subst r. unfold AddressBook.replace, AddressBook.__getitem__, dict_mem.
  destruct id as [k|s]; [|done].
  destruct (dict_get (contacts b) k) as [c0|] eqn:E; [|done]. simpl.
  split; [done|]. split; [|split; [|split]].
  - by rewrite dict_get_set, Z.eqb_refl.
  - intros j Hj. rewrite dict_get_set.
    destruct (Z.eqb_spec k j); [congruence|done].
  - apply dict_keys_set_mem. unfold dict_mem. by rewrite E.
  - done.
Qed.

(** X7.  [delete] raises the "Index value is not integer!" error on an
    id that [int] refuses and [KeyError] on an id that is not in the map,
    changing nothing; otherwise the id is gone afterwards, every other id
    reads as before, the map has one contact less and the counter is
    unchanged. *)
Theorem delete_then_get (ops : list book_op) (id : pyval) :
  let b := run_ops ops AddressBook_init in
  let r := AddressBook.delete id b in
  match py_int id with
  | Raise _ => r = (Raise (IncorrectInput "Index value is not integer!"), b)
  | Ok k =>
      match AddressBook.__getitem__ b (VInt k) with
      | Raise _ => r = (Raise KeyError, b)
      | Ok _ =>
          r.1 = Ok tt /\
          AddressBook.__getitem__ r.2 (VInt k) = Raise KeyError /\
          (forall j, j <> k ->
             AddressBook.__getitem__ r.2 (VInt j) = AddressBook.__getitem__ b (VInt j)) /\
          length (contacts b) = S (length (contacts r.2)) /\
          last_contact_id r.2 = last_contact_id b
      end
  end.
Proof.
  intros b r. destruct (reachable_inv ops) as [_ Hnd]. fold b in Hnd. subst r.
  unfold AddressBook.delete, AddressBook.__getitem__, index_error_decorator,
    mbind, M_bind, lift, get, put, raise.
  destruct id as [k|s]; simpl.
  2: destruct (parse_int s) as [k|]; [|done].
  all: destruct (dict_pop (contacts b) k) as [d|] eqn:E.
  all: try (apply dict_pop_None in E; rewrite E; done).
  all: pose proof (dict_pop_get _ _ _ Hnd E) as Hget.
  all: destruct (dict_get (contacts b) k) as [c0|] eqn:E';
    [|by apply dict_pop_None in E'; congruence].
  all: simpl; split; [done|]; split; [by rewrite Hget, Z.eqb_refl|].
  all: split; [intros j Hj; rewrite Hget; by destruct (Z.eqb_spec j k)|].
  all: split; [|done].
  all: clear -E; revert d E; induction (contacts b) as [|[k0 v0] l IH]; simpl; [done|].
  all: intros d; destruct (k0 =? k); [by intros [= <-]|].
  all: destruct (dict_pop l k) as [d0|]; [|done]; simpl; intros [= <-]; simpl.
  all: by rewrite (IH d0 eq_refl).
Qed.

(** ** Ids are not handed out twice *)

Lemma edit_keeps_absent o b k :
  book_inv b -> is_edit o = true ->
  k < last_contact_id b -> dict_get (contacts b) k = None ->
  last_contact_id b <= last_contact_id (run_op o b) /\
  dict_get (contacts (run_op o b)) k = None.
Proof.
  intros [Hb Hnd] Ho Hk Habs. destruct o as [c|id c|id| |doc]; try done; simpl.
  - split; [lia|]. rewrite dict_get_set.
    destruct (Z.eqb_spec (last_contact_id b) k); [lia|done].
  - unfold AddressBook.replace. destruct id as [i|s]; [|by simpl; split; [lia|]].
    unfold dict_mem. destruct (dict_get (contacts b) i) eqn:E; [|by simpl; split; [lia|]].
    simpl. split; [lia|]. rewrite dict_get_set.
    destruct (Z.eqb_spec i k); [congruence|done].
  - destruct (delete_run id b) as [->|(key & d & Hd & ->)]; [by split; [lia|]|].
    simpl. split; [lia|]. apply dict_pop_keys in Hd as [_ Hd].
    destruct (Hd Hnd) as [_ Hget].
    destruct (dict_get d k) as [c|] eqn:E; [|done].
    apply Hget in E. congruence.
Qed.

(** X8.  An id below the counter that is not in the map (it was deleted)
    stays out of the map through any further [add], [replace] and [delete],
    which never lower the counter: [add] does not hand it out again. *)
Theorem deleted_id_not_reused (ops0 ops : list book_op) (k : Z) :
  let b := run_ops ops0 AddressBook_init in
  Forall (fun o => is_edit o = true) ops ->
  k < last_contact_id b ->
  AddressBook.__getitem__ b (VInt k) = Raise KeyError ->
  AddressBook.__getitem__ (run_ops ops b) (VInt k) = Raise KeyError /\
  last_contact_id b <= last_contact_id (run_ops ops b).
Proof.
  intros b Hops Hk Habs.
  assert (dict_get (contacts b) k = None) as Hnone.
  { unfold AddressBook.__getitem__ in Habs. by destruct (dict_get (contacts b) k). }
  clear Habs. pose proof (reachable_inv ops0) as Hinv. fold b in Hinv.
  clearbody b. revert b Hk Hnone Hinv.
  induction Hops as [|o ops Ho _ IH]; intros b Hk Hnone Hinv.
  - simpl. unfold AddressBook.__getitem__. rewrite Hnone. split; [done|lia].
  - simpl. destruct (edit_keeps_absent o b k Hinv Ho Hk Hnone) as [Hle Hnone'].
    destruct (IH (run_op o b)) as [H1 H2]; [lia|done|by apply book_inv_run_op|].
    split; [done|lia].
Qed.

Lemma deleted_id_not_reused_witness :
  let b := run_ops [OpAdd alice; OpAdd two_phones; OpDelete (VInt 0)] AddressBook_init in
  AddressBook.__getitem__ (run_ops [OpAdd born; OpReplace (VInt 1) alice] b) (VInt 0)
    = Raise KeyError /\
  last_contact_id b <= last_contact_id (run_ops [OpAdd born; OpReplace (VInt 1) alice] b).
Proof.
  intros b.
  apply (deleted_id_not_reused [OpAdd alice; OpAdd two_phones; OpDelete (VInt 0)]
           [OpAdd born; OpReplace (VInt 1) alice] 0).
  - by repeat constructor.
  - reflexivity.
  - reflexivity.
Defined.

(** ** More on loading and dumping *)

Lemma decode_prefix_length doc :
  (length (decode_prefix doc).1 <= length doc)%nat /\
  ((decode_prefix doc).2 = None <->
   Forall (fun item => (Contact.from_json item.2 Contact_init).1 = Ok tt) doc) /\
  ((decode_prefix doc).2 = None -> length (decode_prefix doc).1 = length doc).
Proof.
  induction doc as [|[key entry] doc (IH1 & IH2 & IH3)]; simpl.
  - split; [lia|]. split; [|done]. split; [constructor|done].
  - destruct (Contact.from_json entry Contact_init) as [[[]|e] c] eqn:E.
    + destruct (decode_prefix doc) as [cs r]. simpl in *.
      split; [lia|]. split.
      * rewrite IH2. split; intros H.
        -- constructor; [simpl; by rewrite E|done].
        -- by inversion H.
      * intros H. by rewrite IH3.
    + simpl. split; [lia|]. split; [|done]. split; [done|].
      intros H. inversion H as [|? ? H1 _]. simpl in H1. by rewrite E in H1.
Qed.

(** X9.  What [loads] raises or returns, and the contacts it leaves in
    the book, in order, depend on the document only, not on what the book
    held before, whether the load succeeds or fails. *)
Theorem loads_forgets_previous_book (doc : document) (b : AddressBook) :
  let r := AddressBook.loads doc b in
  let r0 := AddressBook.loads doc AddressBook_init in
  r.1 = r0.1 /\
  (contacts r.2).*2 = (contacts r0.2).*2.
Proof.
  intros r r0. subst r r0. rewrite !loads_run. simpl.
  by rewrite !numbered_values.
Qed.

(** X10.  [loads] returns normally exactly when every entry of the
    document decodes (on a fresh contact); the book then holds one contact
    per entry, and never more than that when it raises. *)
Theorem loads_succeeds_iff (doc : document) (b : AddressBook) :
  let r := AddressBook.loads doc b in
  (r.1 = Ok tt <->
   Forall (fun item => (Contact.from_json item.2 Contact_init).1 = Ok tt) doc) /\
  (r.1 = Ok tt -> length (contacts r.2) = length doc) /\
  (length (contacts r.2) <= length doc)%nat.
Proof.
  intros r. subst r. rewrite loads_run. simpl.
  destruct (decode_prefix_length doc) as (H1 & H2 & H3).
  assert (length (numbered (last_contact_id b) (decode_prefix doc).1)
          = length (decode_prefix doc).1) as ->.
  { rewrite <- (numbered_values (last_contact_id b) (decode_prefix doc).1) at 2.
    by rewrite length_fmap. }
  split; [|split; [|done]].
  - rewrite <- H2. by destruct (decode_prefix doc).2.
  - intros H. apply H3. by destruct (decode_prefix doc).2.
Qed.

Lemma to_int_not_nil n :
  Z.to_int n <> Decimal.Pos Decimal.Nil /\ Z.to_int n <> Decimal.Neg Decimal.Nil.
Proof.
  destruct n as [|p|p]; simpl; [done| |].
  - split; [|done]. intros [= H]. by apply (DecimalPos.Unsigned.to_uint_nonnil p).
  - split; [done|]. intros [= H]. by apply (DecimalPos.Unsigned.to_uint_nonnil p).
Qed.

Lemma str_of_int_inj n n' : str_of_int n = str_of_int n' -> n = n'.
Proof.
  unfold str_of_int. intros H. apply DecimalZ.to_int_inj.
  destruct (to_int_not_nil n) as [H1 H2], (to_int_not_nil n') as [H1' H2'].
  pose proof (NilZero.isi _ H1 H2) as E. pose proof (NilZero.isi _ H1' H2') as E'.
  rewrite H in E. congruence.
Qed.

(** X11.  In every book the operations can build, [dumps] gives one entry
    per contact under keys that are pairwise distinct, and the entry under
    the decimal string of an id is the serialisation of that id's contact. *)
Theorem dumps_keys_distinct (ops : list book_op) :
  let b := run_ops ops AddressBook_init in
  NoDup (AddressBook.dumps b).*1 /\
  length (AddressBook.dumps b) = length (contacts b) /\
  forall k c,
    dict_get (contacts b) k = Some c ->
    str_lookup (AddressBook.dumps b) (str_of_int k) = Some (Contact.to_json c).
Proof.
  intros b. destruct (reachable_inv ops) as [_ Hnd]. fold b in Hnd.
  unfold AddressBook.dumps, dict_keys in *.
  split; [|split].
  - replace ((fun '(rec_id, rec) => (str_of_int rec_id, Contact.to_json rec))
               <$> contacts b).*1
      with (str_of_int <$> (contacts b).*1).
    + apply NoDup_fmap_2; [|done]. intros x y. apply str_of_int_inj.
    + clear Hnd. induction (contacts b) as [|[k c] l IH]; [done|].
      rewrite !fmap_cons. simpl. by rewrite IH.
  - by rewrite length_fmap.
  - intros k c. induction (contacts b) as [|[k0 c0] l IH]; simpl; [done|].
    destruct (Z.eqb_spec k0 k) as [->|Hne].
    + intros [= ->]. by rewrite String.eqb_refl.
    + intros H. destruct (String.eqb_spec (str_of_int k0) (str_of_int k)) as [E|E].
      * by apply str_of_int_inj in E.
      * apply IH; [|done]. rewrite fmap_cons in Hnd. by apply NoDup_cons in Hnd as [_ ?].
Qed.

(** ** Structured search *)






Lemma filter_all {A} (P : A -> Prop) `{forall x, Decision (P x)} (l : list A) :
  Forall P l -> filter P l = l.
Proof.
  induction 1 as [|x l Hx _ IH]; [done|].
  rewrite filter_cons. destruct (decide (P x)); [|done]. by rewrite IH.
Qed.

(** X14.  Without any criterion, [multiple_search] returns the whole
    map, every contact under its id and in the same order. *)
Theorem multiple_search_no_criteria (ops : list book_op) :
  let b := run_ops ops AddressBook_init in
  AddressBook.multiple_search b [] = contacts b.
Proof.
  intros b. destruct (reachable_inv ops) as [_ Hnd]. fold b in Hnd.
  unfold AddressBook.multiple_search. rewrite search_loop_filter by done.
  apply filter_all. by apply Forall_forall.
Qed.

Lemma contains_empty_string c : Contact.contains c "" = true <-> fields c <> [].
Proof.
  unfold Contact.contains. destruct (fields c) as [|f l]; simpl; [done|].
  unfold field_contains. split; [done|]. intros _.
  assert (str_contains "" (value f) = true) as ->; [|done].
  apply str_contains_spec. by exists "", (value f).
Qed.

(** X15.  The empty search string is found in every field value, but a
    contact without fields has no value to look in: [str_search("")]
    returns exactly the contacts that have at least one field. *)
Theorem str_search_empty_string (ops : list book_op) (k : Z) (c : Contact) :
  let b := run_ops ops AddressBook_init in
  dict_get (AddressBook.str_search b "") k = Some c <->
  dict_get (contacts b) k = Some c /\ fields c <> [].
Proof.
  intros b. destruct (reachable_inv ops) as [_ Hnd]. fold b in Hnd.
  unfold AddressBook.str_search. rewrite search_loop_filter by done.
  rewrite (dict_get_filter (fun kc => Contact.contains kc.2 "")) by done.
  simpl. by rewrite contains_empty_string.
Qed.

(** ** Editing a contact *)

(** X16.  Whenever [replace], [delete] or [update] of a contact raises,
    the contact is left exactly as it was. *)
Theorem failed_edit_changes_nothing (c : Contact) (e : exn) :
  (forall index field_item,
     (Contact.replace index field_item c).1 = Raise e ->
     (Contact.replace index field_item c).2 = c) /\
  (forall idx,
     (Contact.delete idx c).1 = Raise e -> (Contact.delete idx c).2 = c) /\
  (forall field_idx value,
     (Contact.update field_idx value c).1 = Raise e ->
     (Contact.update field_idx value c).2 = c).
Proof.
  split; [|split].
  - intros idx f. unfold Contact.replace, index_error_decorator, list_setitem.
    destruct idx as [i|s]; [|done].
    by destruct (norm_index (fields c) i).
  - intros idx. unfold Contact.delete, index_error_decorator, mbind, M_bind, lift, get, put.
    destruct (py_int idx) as [z|[]]; try done. unfold list_pop.
    destruct ((- 2 ^ 63 <=? z) && (z <? 2 ^ 63)); [|done].
    by destruct (norm_index (fields c) z).
  - intros idx v.
    unfold Contact.update, index_error_decorator, mbind, M_bind, lift, get, put.
    destruct (py_int idx) as [z|[]]; try done. unfold list_getitem, list_setitem.
    destruct (norm_index (fields c) z) as [k|]; [|done].
    destruct (fields c !! k) as [f|]; [|done].
    by destruct (validate (cls f) v) as [f'|[]].
Qed.

(** X17.  On a list that fits in memory (fewer than [2^63] fields),
    [delete] with an index that [int] accepts and that is valid for the
    list (counted from the end when negative) returns normally and removes
    one field: the fields before the position keep their index and every
    later field moves down by one. *)
Theorem delete_shifts_later_fields (c : Contact) (idx : pyval) (z : Z) :
  let n := Z.of_nat (length (fields c)) in
  let k := Z.to_nat (if 0 <=? z then z else n + z) in
  let c' := (Contact.delete idx c).2 in
  py_int idx = Ok z ->
  n < 2 ^ 63 ->
  - n <= z < n ->
  (Contact.delete idx c).1 = Ok tt /\
  S (length (fields c')) = length (fields c) /\
  (forall j, (j < k)%nat -> fields c' !! j = fields c !! j) /\
  (forall j, (k <= j)%nat -> fields c' !! j = fields c !! S j).
Proof.
  intros n k c' Hidx Hfit Hz. subst c'. rewrite (Contact_delete_run idx z c Hidx).
  destruct (Z.leb_spec (- 2 ^ 63) z); [|lia].
  destruct (Z.ltb_spec z (2 ^ 63)); [|lia]. cbn [andb].
  destruct (norm_index (fields c) z) as [k'|] eqn:E.
  2: { apply norm_index_None in E. by destruct E. }
  apply norm_index_Some in E as (Hk & _ & ->). fold n k in Hk |- *. simpl.
  split; [done|]. split; [|split].
  - rewrite length_delete by by apply lookup_lt_is_Some_2. lia.
  - intros j Hj. by apply list_lookup_delete_lt.
  - intros j Hj. by apply list_lookup_delete_ge.
Qed.

Lemma delete_shifts_later_fields_witness :
  py_int (VStr "-2") = Ok (-2) /\
  (Contact.delete (VStr "-2") alice).1 = Ok tt /\
  S (length (fields (Contact.delete (VStr "-2") alice).2)) = length (fields alice) /\
  fields (Contact.delete (VStr "-2") alice).2 !! 0%nat = fields alice !! 1%nat.
Proof.
  destruct (delete_shifts_later_fields alice (VStr "-2") (-2) eq_refl
              ltac:(simpl; lia) ltac:(simpl; lia)) as (H0 & H1 & _ & H3).
  split; [reflexivity|]. split; [exact H0|]. split; [exact H1|].
  apply (H3 0%nat). simpl. lia.
Defined.

(** X18.  [update], whether it returns or raises, leaves the number of
    fields and the class of the field at every position as they were: a
    field is revalidated by its own class and never changes kind. *)
Theorem update_keeps_kinds (c : Contact) (field_idx : pyval) (value : string) :
  let c' := (Contact.update field_idx value c).2 in
  length (fields c') = length (fields c) /\
  cls <$> fields c' = cls <$> fields c.
Proof.
  intros c'. subst c'.
  unfold Contact.update, index_error_decorator, mbind, M_bind, lift, get, put.
  destruct (py_int field_idx) as [z|[]]; try done.
  unfold list_getitem, list_setitem.
  destruct (norm_index (fields c) z) as [k|]; [|done].
  destruct (fields c !! k) as [f|] eqn:Hf; [|done].
  destruct (validate (cls f) value) as [f'|[]] eqn:E; try done.
  simpl. split; [by rewrite length_insert|].
  rewrite list_fmap_insert. apply list_insert_id.
  rewrite list_lookup_fmap, Hf. simpl. f_equal. by apply validate_cls in E.
Qed.

(** X19.  A contact whose field values all pass the validation of their
    class stays so through [add] and [replace] of a valid field and through
    every [delete], [update] and [from_json], whether they return or
    raise. *)
Theorem contact_methods_keep_fields_valid (c : Contact) :
  contact_ok c ->
  (forall f, field_ok f -> contact_ok (Contact.add f c).2) /\
  (forall index f, field_ok f -> contact_ok (Contact.replace index f c).2) /\
  (forall idx, contact_ok (Contact.delete idx c).2) /\
  (forall field_idx value, contact_ok (Contact.update field_idx value c).2) /\
  (forall dict_contact, contact_ok (Contact.from_json dict_contact c).2).
Proof.
  intros Hc. split; [|split; [|split; [|split]]].
  - intros f Hf. by apply contact_ok_add.
  - intros idx f Hf. by apply contact_ok_replace.
  - intros idx. by apply contact_ok_delete.
  - intros idx v. by apply contact_ok_update.
  - intros doc. by apply contact_ok_from_json.
Qed.

Lemma contact_methods_keep_fields_valid_witness :
  contact_ok alice /\
  contact_ok (Contact.update (VInt 1) "0671234567" alice).2.
Proof.
  assert (contact_ok alice) as H by (split; [done|by repeat constructor]).
  split; [exact H|].
  destruct (contact_methods_keep_fields_valid alice H) as (_ & _ & _ & Hu & _).
  apply Hu.
Defined.

(** ** Fields through a document *)

(** X20.  Every field a constructor builds decodes from its own
    serialisation as the same field: its class is the one asked for, and its
    stored value passes the validation again and comes out unchanged. *)
Theorem field_survives_dump_and_load (c : field_class) (raw : string) (f : DataField) :
  new_field c raw = Ok f ->
  field_decoder (DataField_to_json f) = Ok f /\
  cls f = c /\
  field_ok f.
Proof.
  intros H. unfold new_field in H.
  pose proof (validate_field_ok c raw f H) as Hok.
  split; [by apply field_decoder_to_json|]. split; [by eapply validate_cls|done].
Qed.

Lemma field_survives_dump_and_load_witness :
  new_field PhoneField "(099) 123 45 67" = Ok phone_099 /\
  field_decoder (DataField_to_json phone_099) = Ok phone_099 /\
  cls phone_099 = PhoneField /\
  field_ok phone_099.
Proof.
  assert (new_field PhoneField "(099) 123 45 67" = Ok phone_099) as H by reflexivity.
  split; [exact H|].
  exact (field_survives_dump_and_load PhoneField "(099) 123 45 67" phone_099 H).
Defined.

(** X21.  In every book built from well-formed contacts,
    [loads(dumps())] returns normally and the book holds the same contacts
    with the same fields, in the same order. *)
Theorem loads_dumps_keeps_contacts (ops : list book_op) :
  let b := run_ops ops AddressBook_init in
  let r := AddressBook.loads (AddressBook.dumps b) b in
  Forall op_ok ops ->
  r.1 = Ok tt /\ (contacts r.2).*2 = (contacts b).*2.
Proof.
  intros b r Hops. subst r. unfold b. rewrite loads_dumps_reachable by done.
  simpl. split; [done|]. apply numbered_values.
Qed.

Lemma loads_dumps_keeps_contacts_witness :
  let ops := [OpAdd alice; OpAdd two_phones; OpDelete (VInt 0); OpAdd born] in
  let b := run_ops ops AddressBook_init in
  let r := AddressBook.loads (AddressBook.dumps b) b in
  Forall op_ok ops /\
  r.1 = Ok tt /\ (contacts r.2).*2 = [two_phones; born].
Proof.
  intros ops b r.
  assert (Forall op_ok ops) as H.
  { repeat constructor; simpl; try done; by repeat constructor. }
  split; [exact H|].
  exact (loads_dumps_keeps_contacts ops H).
Defined.

(** ** Reading a contact *)

Lemma list_getitem_nat {A} (l : list A) (j : nat) :
  (j < length l)%nat -> list_getitem l (Z.of_nat j) = match l !! j with
                                                       | Some x => Ok x
                                                       | None => Raise IndexError
                                                       end.
Proof.
  intros Hj. unfold list_getitem, norm_index.
  destruct (Z.leb_spec 0 (Z.of_nat j)); [|lia].
  destruct (Z.ltb_spec (Z.of_nat j) (Z.of_nat (length l))); [|lia].
  simpl. by rewrite Nat2Z.id.
Qed.

(** X23.  [add] puts the field last: the contact then reads it back at
    the index that was the length and at index -1, is one field longer,
    and reads its earlier fields as before. *)
Theorem add_then_getitem (c : Contact) (f : DataField) :
  let r := Contact.add f c in
  Contact.__getitem__ r.2 (VInt (Contact.__len__ c)) = Ok f /\
  Contact.__getitem__ r.2 (VInt (-1)) = Ok f /\
  Contact.__len__ r.2 = Contact.__len__ c + 1 /\
  forall j, 0 <= j < Contact.__len__ c ->
            Contact.__getitem__ r.2 (VInt j) = Contact.__getitem__ c (VInt j).
Proof.
  intros r. subst r. unfold Contact.add, Contact.__getitem__, Contact.__len__. simpl.
  split; [|split; [|split]].
  - rewrite list_getitem_nat by (rewrite length_app; simpl; lia).
    by rewrite lookup_app_r, Nat.sub_diag.
  - unfold list_getitem, norm_index. rewrite length_app. simpl.
    destruct (Z.leb_spec 0 (-1)); [lia|].
    destruct (Z.leb_spec (- Z.of_nat (length (fields c) + 1)) (-1)); [|lia].
    simpl.
    replace (Z.to_nat (Z.of_nat (length (fields c) + 1) + -1))
      with (length (fields c)) by lia.
    by rewrite lookup_app_r, Nat.sub_diag.
  - rewrite length_app. simpl. lia.
  - intros j Hj. rewrite <- (Z2Nat.id j) by lia.
    rewrite !list_getitem_nat by (rewrite ?length_app; simpl; lia).
    by rewrite lookup_app_l by lia.
Qed.

(** ** The views of a contact *)

Lemma phone_value_not_empty f :
  field_ok f -> cls f = PhoneField -> value f <> "".
Proof.
  unfold field_ok. intros H Hc. rewrite Hc in H. simpl in H.
  apply PhoneField_validate_Ok_inv in H as (cc & op & num & -> & _). done.
Qed.

Lemma email_value_not_empty f :
  field_ok f -> cls f = EmailField -> value f <> "".
Proof.
  unfold field_ok. intros H Hc. rewrite Hc in H. simpl in H. intros Hv.
  rewrite Hv in H. done.
Qed.

Lemma description_cls f c :
  field_description (cls f) = field_description c <-> cls f = c.
Proof. split; [|by intros ->]. by destruct (cls f), c. Qed.

Lemma str_join_not_empty sep v vs : v <> "" -> str_join sep (v :: vs) <> "".
Proof.
  intros Hv. destruct vs as [|v' vs]; [done|].
  cbn [str_join]. destruct v; [done|]. done.
Qed.

Lemma first_value_None l description :
  Contact.first_value l description = None <->
  Forall (fun f => field_description (cls f) <> description) l.
Proof.
  induction l as [|f l IH]; simpl; [by split; [constructor|]|].
  destruct (String.eqb_spec (field_description (cls f)) description) as [E|E].
  - split; [done|]. by intros [? _]%Forall_cons.
  - rewrite IH. split; [by constructor|]. by intros [_ ?]%Forall_cons.
Qed.

Lemma first_value_Some l description v :
  Contact.first_value l description = Some v ->
  exists f, f ∈ l /\ field_description (cls f) = description /\ value f = v.
Proof.
  induction l as [|f l IH]; simpl; [done|].
  destruct (String.eqb_spec (field_description (cls f)) description) as [E|E].
  - intros [= <-]. exists f. split; [apply list_elem_of_here|done].
  - intros (f' & Hin & H)%IH. exists f'. split; [by apply list_elem_of_further|done].
Qed.

(** X24.  For a contact whose fields are valid, [get_phone] is empty
    exactly when there is no Phone field and [get_mail] exactly when there
    is no Email field; [get_birthday] is [None] exactly when there is no
    Birthday field. *)
Theorem views_empty_iff (c : Contact) :
  contact_ok c ->
  (Contact.get_phone c = "" <->
   Forall (fun f => field_description (cls f) <> "Phone") (fields c)) /\
  (Contact.get_mail c = "" <->
   Forall (fun f => field_description (cls f) <> "Email") (fields c)) /\
  (Contact.get_birthday c = None <->
   Forall (fun f => field_description (cls f) <> "Birthday") (fields c)).
Proof.
  intros [_ Hok]. split; [|split].
  - unfold Contact.get_phone.
    induction Hok as [|f l Hf _ IH]; [by split; [constructor|]|].
    rewrite filter_cons. destruct (decide (field_description (cls f) = "Phone")) as [E|E].
    + rewrite fmap_cons. split.
      * intros H. exfalso. revert H. apply str_join_not_empty.
        apply phone_value_not_empty; [done|].
        by apply (description_cls f PhoneField).
      * by intros [? _]%Forall_cons.
    + rewrite IH. split; [by constructor|]. by intros [_ ?]%Forall_cons.
  - unfold Contact.get_mail. rewrite <- first_value_None.
    destruct (Contact.first_value (fields c) "Email") as [v|] eqn:E; [|done].
    simpl. split; [|done]. intros ->.
    apply first_value_Some in E as (f & Hin & Hd & Hv).
    rewrite Forall_forall in Hok. exfalso.
    apply (email_value_not_empty f); [by apply Hok| |done].
    by apply (description_cls f EmailField).
  - apply first_value_None.
Qed.

Lemma views_empty_iff_witness :
  contact_ok alice /\
  Contact.get_phone alice <> "" /\ Contact.get_mail alice = "" /\
  Contact.get_birthday alice = None.
Proof.
  assert (contact_ok alice) as H by (split; [done|by repeat constructor]).
  split; [exact H|].
  destruct (views_empty_iff alice H) as (H1 & H2 & H3).
  split; [|split].
  - intros E. apply H1 in E. apply Forall_cons in E as [_ E].
    by apply Forall_cons in E as [E _].
  - apply H2. repeat constructor; discriminate.
  - apply H3. repeat constructor; discriminate.
Defined.
